(** * Resource manager (resmgr.c): device buffer, command dispatcher and
    connection handler, embedded shallowly and verified.

  Sources: src/tasks/task1/src/resource_manager/resmgr.c (the server)
           src/tasks/task1/src/resource_manager/client.c (the request tool)

  C [char] arrays are lists of bytes; a C string is the run of bytes in
  front of the first NUL of such an array.  [size_t] and [unsigned long]
  are 64-bit: values are kept in [Z] and the wrap-around of [++] is
  written out.  The device is a global guarded by one mutex; every
  operation on it runs inside [handle_command] with the mutex held, so a
  run of the server is a sequence of [handle_command] calls on one shared
  [device_t], in lock-acquisition order. *)

From Stdlib Require Import ZArith Lia Strings.Byte Strings.String DecimalString.
From stdpp Require Import base list.

Local Open Scope Z_scope.

(* ================================================================== *)
(** ** Bytes and C strings *)
(* ================================================================== *)

Module CStr.

#[global] Instance byte_eq_dec : EqDecision byte.
Proof.
  intros x y. destruct (Byte.eqb x y) eqn:E.
  - left. now apply Byte.byte_dec_bl.
  - right. now apply Byte.eqb_false.
Defined.

Definition NUL : byte := x00.
Definition LF : byte := x0a.
Definition CR : byte := x0d.

(** A string literal of the source, as its bytes (UTF-8, as the file is
    encoded), without the terminating NUL. *)
Definition lit (s : string) : list byte := list_byte_of_string s.

(** [isspace] in the "C" locale (the program never calls setlocale). *)
Definition isspace (c : byte) : bool :=
  match c with
  | x20 | x09 | x0a | x0b | x0c | x0d => true
  | _ => false
  end.

(** The longest prefix whose bytes satisfy [p], and what follows it. *)
Fixpoint take_while (p : byte -> bool) (s : list byte) : list byte :=
  match s with
  | c :: s' => if p c then c :: take_while p s' else []
  | [] => []
  end.

Fixpoint drop_while (p : byte -> bool) (s : list byte) : list byte :=
  match s with
  | c :: s' => if p c then drop_while p s' else s
  | [] => []
  end.

Definition is_nul (c : byte) : bool := Byte.eqb c NUL.
Definition not_nul (c : byte) : bool := negb (is_nul c).
Definition not_space (c : byte) : bool := negb (isspace c).
Definition not_newline (c : byte) : bool := negb (Byte.eqb c LF).

(** The C string held at the start of the memory [a]. *)
Definition cstr (a : list byte) : list byte := take_while not_nul a.

(** [strlen] *)
Definition strlen (a : list byte) : Z := Z.of_nat (length (cstr a)).

Definition uchar (c : byte) : Z := Z.of_N (Byte.to_N c).

(** [strcmp]: the difference of the first two bytes that differ, the end
    of a string counting as 0. *)
Fixpoint strcmp_bytes (a b : list byte) : Z :=
  match a, b with
  | [], [] => 0
  | [], d :: _ => 0 - uchar d
  | c :: _, [] => uchar c
  | c :: a', d :: b' =>
      if decide (c = d) then strcmp_bytes a' b' else uchar c - uchar d
  end.

Definition strcmp (a b : list byte) : Z := strcmp_bytes (cstr a) (cstr b).

(** [memcpy(dst, src, n)] for [n] within both. *)
Definition memcpy (dst src : list byte) (n : nat) : list byte :=
  take n src ++ drop n dst.

(** [strcpy(dst, src)]: the bytes of the C string [src] and its NUL. *)
Definition strcpy (dst src : list byte) : list byte :=
  memcpy dst (src ++ [NUL]) (S (length src)).

(** [memset(a, 0, sizeof a)] on an array of [n] bytes. *)
Definition zeroed (n : nat) : list byte := replicate n NUL.

(** [%zu] and [%lu]: decimal digits of an unsigned value. *)
Definition fmt_u (n : Z) : list byte :=
  lit (NilEmpty.string_of_uint (N.to_uint (Z.to_N n))).

(** The [(int)] cast of a [size_t]: 32 bits, two's complement. *)
Definition to_int (n : Z) : Z :=
  let m := n mod 2 ^ 32 in if m <? 2 ^ 31 then m else m - 2 ^ 32.

(** [%.*s]: at most [prec] bytes of the C string at [s]; a negative
    precision counts as none given. *)
Definition fmt_prec_s (prec : Z) (s : list byte) : list byte :=
  if prec <? 0 then cstr s else take (Z.to_nat prec) (cstr s).

(** [snprintf(out, size, ...)] keeps at most [size - 1] bytes of the
    formatted text. *)
Definition snprintf (size : nat) (text : list byte) : list byte :=
  take (size - 1) text.

(** [%63s]: skip white space, then at most [width] bytes that are not
    white space.  [None] is the input failure at the end of the input.
    Returns the token and the rest of the input. *)
Definition scan_s (width : nat) (input : list byte)
  : option (list byte * list byte) :=
  match drop_while isspace input with
  | [] => None
  | rest =>
      let tok := take width (take_while not_space rest) in
      Some (tok, drop (length tok) rest)
  end.

(** [%1023[^\n]]: at most [width] bytes other than a newline, at least
    one. [None] when the first byte does not match or the input ended. *)
Definition scan_not_newline (width : nat) (input : list byte)
  : option (list byte * list byte) :=
  match take width (take_while not_newline input) with
  | [] => None
  | tok => Some (tok, drop (length tok) input)
  end.

End CStr.
Import CStr.

(* ================================================================== *)
(** ** Device state *)
(* ================================================================== *)

Definition DEVICE_BUFFER_SIZE : Z := 1024.

(** [unsigned long] and [size_t] hold 64 bits. *)
Definition ULONG_MODULUS : Z := 2 ^ 64.

(** [x++] on an [unsigned long]. *)
Definition incr (x : Z) : Z := (x + 1) mod ULONG_MODULUS.

(** [device_t], without its mutex: every access below is made with the
    mutex held. *)
Record device_t := mk_device {
  buffer : list byte;       (* char buffer[DEVICE_BUFFER_SIZE] *)
  buffer_size : Z;          (* size_t *)
  read_pos : Z;             (* size_t *)
  write_pos : Z;            (* size_t *)
  access_level : Z;         (* int: 0 - read-only, 1 - read-write *)
  read_count : Z;           (* unsigned long *)
  write_count : Z           (* unsigned long *)
}.

Definition set_buffer (b : list byte) (d : device_t) : device_t :=
  mk_device b (buffer_size d) (read_pos d) (write_pos d)
            (access_level d) (read_count d) (write_count d).
Definition set_buffer_size (n : Z) (d : device_t) : device_t :=
  mk_device (buffer d) n (read_pos d) (write_pos d)
            (access_level d) (read_count d) (write_count d).
Definition set_read_pos (n : Z) (d : device_t) : device_t :=
  mk_device (buffer d) (buffer_size d) n (write_pos d)
            (access_level d) (read_count d) (write_count d).
Definition set_write_pos (n : Z) (d : device_t) : device_t :=
  mk_device (buffer d) (buffer_size d) (read_pos d) n
            (access_level d) (read_count d) (write_count d).
Definition set_access_level (n : Z) (d : device_t) : device_t :=
  mk_device (buffer d) (buffer_size d) (read_pos d) (write_pos d)
            n (read_count d) (write_count d).
Definition set_read_count (n : Z) (d : device_t) : device_t :=
  mk_device (buffer d) (buffer_size d) (read_pos d) (write_pos d)
            (access_level d) n (write_count d).
Definition set_write_count (n : Z) (d : device_t) : device_t :=
  mk_device (buffer d) (buffer_size d) (read_pos d) (write_pos d)
            (access_level d) (read_count d) n.

(** The welcome text that [device_init] copies into the buffer. *)
Definition WELCOME : list byte :=
  lit "Добро пожаловать в менеджер ресурсов!".

(** [device_init] *)
Definition device_init : device_t :=
  let d := mk_device (zeroed (Z.to_nat DEVICE_BUFFER_SIZE)) 0 0 0 0 0 0 in
  let d := set_access_level 1 d in
  let d := set_buffer (strcpy (buffer d) WELCOME) d in
  set_buffer_size (strlen (buffer d)) d.

(* ================================================================== *)
(** ** The server's state and its effects *)
(* ================================================================== *)

(** What a command can touch: the global device, and the client channels,
    kept as the log of the [send_response] calls made so far (descriptor
    and text handed to [send], in order). *)
Record world := mk_world {
  device : device_t;
  sent : list (Z * list byte)
}.

Definition M (A : Type) : Type := world -> A * world.

Definition ret {A} (a : A) : M A := fun w => (a, w).
Definition bind {A B} (m : M A) (k : A -> M B) : M B :=
  fun w => let '(a, w') := m w in k a w'.

Notation "x <- m ;; k" := (bind m (fun x => k))
  (at level 100, m at next level, right associativity).
Notation "m ;; k" := (bind m (fun _ => k))
  (at level 100, right associativity).

Definition get_device : M device_t := fun w => (device w, w).
Definition update_device (f : device_t -> device_t) : M unit :=
  fun w => (tt, mk_world (f (device w)) (sent w)).

(** [send_response]: one [send] of the whole C string [response]. *)
Definition send_response (client_fd : Z) (response : list byte) : M unit :=
  fun w => (tt, mk_world (device w) (sent w ++ [(client_fd, cstr response)])).

(* ================================================================== *)
(** ** The command messages *)
(* ================================================================== *)

Definition MSG_BAD_FORMAT : list byte := lit "ERROR: Неверный формат команды".
Definition MSG_READ_ONLY : list byte :=
  lit "ERROR: Устройство доступно только для чтения".
Definition MSG_BAD_ACCESS : list byte :=
  lit "ERROR: Неверный уровень доступа (read-only/read-write)".
Definition MSG_UNKNOWN : list byte :=
  lit "ERROR: Неизвестная команда. Используйте HELP для справки.".
Definition MSG_HELP : list byte :=
  lit "Доступные команды:" ++ [LF] ++
  lit "READ - чтение данных" ++ [LF] ++
  lit "DATA <text> - запись данных" ++ [LF] ++
  lit "CLEAR - очистка буфера" ++ [LF] ++
  lit "STATUS - статистика устройства" ++ [LF] ++
  lit "SET_ACCESS <read-only|read-write> - установка уровня доступа" ++ [LF] ++
  lit "HELP - эта справка".

(* ================================================================== *)
(** ** handle_command *)
(* ================================================================== *)

(** [sscanf(cmd, "%63s %1023[^\n]", command, argument)].  [command] and
    [argument] are the two arrays as they are before the call; the result
    is the return value and the two arrays after it.  An array whose
    conversion does not happen is left as it was. *)
Definition sscanf_command (cmd command argument : list byte)
  : Z * list byte * list byte :=
  match scan_s 63 (cstr cmd) with
  | None => (-1, command, argument)
  | Some (tok, rest) =>
      let command := strcpy command tok in
      match scan_not_newline 1023 (drop_while isspace rest) with
      | None => (1, command, argument)
      | Some (arg, _) => (2, command, strcpy argument arg)
      end
  end.

(** [handle_command(client_fd, cmd, cmd_len)].  [command0] and
    [argument0] are the bytes found in the local arrays [command] and
    [argument] on entry: the arrays are not initialised, and [sscanf]
    leaves [argument] alone when the line has a keyword only. *)
Definition handle_command (client_fd : Z) (cmd : list byte)
    (command0 argument0 : list byte) : M Z :=
  let '(n, command, argument) := sscanf_command cmd command0 argument0 in
  if n <? 1 then
    send_response client_fd MSG_BAD_FORMAT ;;
    ret (-1)
  else
    (if strcmp command (lit "READ") =? 0 then
       update_device (fun d => set_read_count (incr (read_count d)) d) ;;
       d <- get_device ;;
       if buffer_size d =? 0 then
         send_response client_fd (lit "BUFFER_EMPTY")
       else
         send_response client_fd
           (snprintf (Z.to_nat (DEVICE_BUFFER_SIZE + 64))
              (lit "DATA: " ++ fmt_prec_s (to_int (buffer_size d)) (buffer d)))
     else if strcmp command (lit "DATA") =? 0 then
       d <- get_device ;;
       if access_level d =? 0 then
         send_response client_fd MSG_READ_ONLY
       else
         let len := strlen argument in
         let len := if len >=? DEVICE_BUFFER_SIZE
                    then DEVICE_BUFFER_SIZE - 1 else len in
         update_device (fun d =>
           set_buffer (memcpy (buffer d) argument (Z.to_nat len)) d) ;;
         update_device (fun d =>
           set_buffer (<[Z.to_nat len := NUL]> (buffer d)) d) ;;
         update_device (set_buffer_size len) ;;
         update_device (fun d => set_write_count (incr (write_count d)) d) ;;
         send_response client_fd
           (snprintf 64 (lit "WRITTEN: " ++ fmt_u len ++ lit " bytes"))
     else if strcmp command (lit "CLEAR") =? 0 then
       d <- get_device ;;
       if access_level d =? 0 then
         send_response client_fd MSG_READ_ONLY
       else
         update_device (fun d => set_buffer (<[0%nat := NUL]> (buffer d)) d) ;;
         update_device (set_buffer_size 0) ;;
         update_device (set_read_pos 0) ;;
         update_device (set_write_pos 0) ;;
         send_response client_fd (lit "BUFFER_CLEARED")
     else if strcmp command (lit "STATUS") =? 0 then
       d <- get_device ;;
       send_response client_fd
         (snprintf 256
            (lit "STATUS: buffer_size=" ++ fmt_u (buffer_size d) ++
             lit ", reads=" ++ fmt_u (read_count d) ++
             lit ", writes=" ++ fmt_u (write_count d) ++
             lit ", access=" ++
             (if negb (access_level d =? 0) then lit "read-write"
              else lit "read-only")))
     else if strcmp command (lit "SET_ACCESS") =? 0 then
       if strcmp argument (lit "read-only") =? 0 then
         update_device (set_access_level 0) ;;
         send_response client_fd (lit "ACCESS_SET: read-only")
       else if strcmp argument (lit "read-write") =? 0 then
         update_device (set_access_level 1) ;;
         send_response client_fd (lit "ACCESS_SET: read-write")
       else
         send_response client_fd MSG_BAD_ACCESS
     else if strcmp command (lit "HELP") =? 0 then
       send_response client_fd MSG_HELP
     else
       send_response client_fd MSG_UNKNOWN) ;;
    ret 0.

(* ================================================================== *)
(** ** client_thread: one round of the receive loop *)
(* ================================================================== *)

(** Array accesses of [client_thread], with the index as the code
    computes it; [None] is an access outside the array.  The program has
    no such check: it reads, and may write, the byte of the stack in
    front of [buf] and goes on.  That byte is not part of this model, so
    a run is followed up to such an access and no further; this happens
    for a message of one byte only ([buf[n-2]] with [n = 1]). *)
Definition load (a : list byte) (i : Z) : option byte :=
  if i <? 0 then None else a !! Z.to_nat i.

Definition store (a : list byte) (i : Z) (c : byte) : option (list byte) :=
  if (0 <=? i) && (i <? Z.of_nat (length a))
  then Some (<[Z.to_nat i := c]> a) else None.

(** [recv(fd, buf, sizeof(buf) - 1, 0)] returning [length msg > 0]: the
    bytes of [msg] are at the start of [buf]. *)
Definition recv_into (buf msg : list byte) : list byte :=
  memcpy buf msg (length msg).

(** The lines of the loop body between [recv] and [handle_command]:
    [buf[n] = '\0'], then the two tests that remove the line end. *)
Definition strip_line_end (buf : list byte) (n : Z) : option (list byte) :=
  buf ← store buf n NUL;
  c ← load buf (n - 1);
  buf ← (if decide (c = LF) then store buf (n - 1) NUL else Some buf);
  c ← load buf (n - 2);
  if decide (c = CR) then store buf (n - 2) NUL else Some buf.

(** One round of the loop for a received message [msg] ([n > 0] bytes):
    the command string handed to [handle_command].  [buf0] is the array
    [buf] before the [recv]. *)
Definition received_command (buf0 msg : list byte) : option (list byte) :=
  strip_line_end (recv_into buf0 msg) (Z.of_nat (length msg)).

Definition client_round (fd : Z) (buf0 msg command0 argument0 : list byte)
  : option (M Z) :=
  cmd ← received_command buf0 msg;
  Some (handle_command fd cmd command0 argument0).

(* ================================================================== *)
(** ** Runs of the server *)
(* ================================================================== *)

(** One call of [handle_command]: the client, the command string, and the
    contents of the two local arrays on entry. *)
Record request := mk_request {
  req_fd : Z;
  req_cmd : list byte;
  req_command0 : list byte;
  req_argument0 : list byte
}.

Definition handle (r : request) : M Z :=
  handle_command (req_fd r) (req_cmd r) (req_command0 r) (req_argument0 r).

(** The calls of all clients, in the order in which they take the mutex. *)
Fixpoint serve (rs : list request) : M unit :=
  match rs with
  | [] => ret tt
  | r :: rs' => handle r ;; serve rs'
  end.

(** The server after [main] has called [device_init]. *)
Definition initial_world : world := mk_world device_init [].

(* ================================================================== *)
(** ** What the parser sees in a command string *)
(* ================================================================== *)

(** The keyword that [sscanf] stores in [command], when there is one. *)
Definition parsed_keyword (cmd : list byte) : option (list byte) :=
  fst <$> scan_s 63 (cstr cmd).

(** The text that [sscanf] stores in [argument], when the line has one. *)
Definition parsed_argument (cmd : list byte) : option (list byte) :=
  '(_, rest) ← scan_s 63 (cstr cmd);
  fst <$> scan_not_newline 1023 (drop_while isspace rest).

(** The text that follows the keyword and the white space after it, up
    to the end of its line: what the client wrote as the argument. *)
Definition argument_text (cmd : list byte) : list byte :=
  match scan_s 63 (cstr cmd) with
  | Some (_, rest) => take_while not_newline (drop_while isspace rest)
  | None => []
  end.

(** The C string in the array [argument] when the dispatch starts. *)
Definition argument_seen (cmd argument0 : list byte) : list byte :=
  default (cstr argument0) (parsed_argument cmd).

(** No byte of [s] is NUL. *)
Definition nul_free (s : list byte) : Prop := Forall (fun c => c <> NUL) s.

(** The device invariant: the buffer is a C string of [buffer_size]
    bytes inside an array of [DEVICE_BUFFER_SIZE]. *)
Definition device_ok (d : device_t) : Prop :=
  Z.of_nat (length (buffer d)) = DEVICE_BUFFER_SIZE /\
  strlen (buffer d) = buffer_size d /\
  buffer_size d <= DEVICE_BUFFER_SIZE - 1.

(** The logical content of the buffer: its first [buffer_size] bytes. *)
Definition content (d : device_t) : list byte :=
  take (Z.to_nat (buffer_size d)) (buffer d).

(* ================================================================== *)
(** ** Lemmas on bytes and C strings *)
(* ================================================================== *)

Section CStrFacts.

Implicit Types (a b s : list byte) (p : byte -> bool) (c : byte).

Lemma not_nul_true c : not_nul c = true <-> c <> NUL.
Proof.
  unfold not_nul, is_nul. destruct (Byte.eqb c NUL) eqn:E; simpl.
  - apply Byte.byte_dec_bl in E. split; [discriminate | congruence].
  - apply Byte.eqb_false in E. tauto.
Qed.

Lemma take_while_app_drop p s : take_while p s ++ drop_while p s = s.
Proof. induction s as [|c s IH]; simpl; [done|]. destruct (p c); simpl; congruence. Qed.

Lemma take_while_Forall p s : Forall (fun c => p c = true) (take_while p s).
Proof.
  induction s as [|c s IH]; simpl; [constructor|].
  destruct (p c) eqn:E; [constructor; done | constructor].
Qed.

Lemma take_while_all p s : Forall (fun c => p c = true) s -> take_while p s = s.
Proof. induction 1 as [|c s Hc _ IH]; simpl; [done|]. rewrite Hc. congruence. Qed.

Lemma take_while_app_stop p s c b :
  Forall (fun c => p c = true) s -> p c = false ->
  take_while p (s ++ c :: b) = s.
Proof.
  induction 1 as [|x s Hx _ IH]; simpl; intros Hc.
  - by rewrite Hc.
  - rewrite Hx. f_equal. auto.
Qed.

Lemma drop_while_all p s : Forall (fun c => p c = true) s -> drop_while p s = [].
Proof. induction 1 as [|c s Hc _ IH]; simpl; [done|]. by rewrite Hc. Qed.

Lemma drop_while_nil_all p s : drop_while p s = [] -> Forall (fun c => p c = true) s.
Proof.
  induction s as [|c s IH]; simpl; [constructor|].
  destruct (p c) eqn:E; [|discriminate]. constructor; auto.
Qed.

Lemma drop_while_head p s c b : drop_while p s = c :: b -> p c = false.
Proof.
  induction s as [|x s IH]; simpl; [discriminate|].
  destruct (p x) eqn:E; [auto|]. intros [= -> _]. done.
Qed.

Lemma take_while_Forall_keep (P : byte -> Prop) p s :
  Forall P s -> Forall P (take_while p s).
Proof.
  induction 1 as [|c s Hc _ IH]; simpl; [constructor|].
  destruct (p c); constructor; auto.
Qed.

Lemma drop_while_Forall_keep (P : byte -> Prop) p s :
  Forall P s -> Forall P (drop_while p s).
Proof.
  induction 1 as [|c s Hc Hs IH]; simpl; [constructor|].
  destruct (p c); [auto | constructor; auto].
Qed.

Lemma take_while_length p s : (length (take_while p s) <= length s)%nat.
Proof. induction s as [|c s IH]; simpl; [lia|]. destruct (p c); simpl; lia. Qed.

Lemma cstr_nul_free a : nul_free (cstr a).
Proof.
  unfold nul_free, cstr. eapply Forall_impl; [apply take_while_Forall|].
  intros c. apply not_nul_true.
Qed.

Lemma nul_free_not_nul s : nul_free s -> Forall (fun c => not_nul c = true) s.
Proof. intros H. eapply Forall_impl; [exact H|]. intros c. apply not_nul_true. Qed.

Lemma cstr_of_nul_free s : nul_free s -> cstr s = s.
Proof. intros H. apply take_while_all, nul_free_not_nul, H. Qed.

Lemma cstr_app_nul s b : nul_free s -> cstr (s ++ NUL :: b) = s.
Proof. intros H. apply take_while_app_stop; [by apply nul_free_not_nul | done]. Qed.

Lemma cstr_idemp a : cstr (cstr a) = cstr a.
Proof. apply cstr_of_nul_free, cstr_nul_free. Qed.

Lemma cstr_length a : (length (cstr a) <= length a)%nat.
Proof. apply take_while_length. Qed.

Lemma cstr_take_prefix a (n : nat) :
  (n <= length (cstr a))%nat -> take n a = take n (cstr a).
Proof.
  unfold cstr. rewrite <- (take_while_app_drop not_nul a) at 2.
  intros H. by rewrite take_app_le.
Qed.

Lemma strcpy_eq dst s : strcpy dst s = s ++ NUL :: drop (S (length s)) dst.
Proof.
  unfold strcpy, memcpy.
  rewrite take_ge by (rewrite length_app; simpl; lia).
  by rewrite <- app_assoc.
Qed.

Lemma cstr_strcpy dst s : nul_free s -> cstr (strcpy dst s) = s.
Proof. intros H. rewrite strcpy_eq. by apply cstr_app_nul. Qed.

Lemma uchar_inj c d : uchar c = uchar d -> c = d.
Proof.
  unfold uchar. intros H. apply N2Z.inj in H.
  assert (Some c = Some d) as [= ->]; [|done].
  by rewrite <- (Byte.of_to_N c), <- (Byte.of_to_N d), H.
Qed.

Lemma uchar_zero c : uchar c = 0 -> c = NUL.
Proof. intros H. apply uchar_inj. by rewrite H. Qed.

Lemma strcmp_bytes_zero s1 s2 :
  nul_free s1 -> nul_free s2 -> strcmp_bytes s1 s2 = 0 <-> s1 = s2.
Proof.
  intros H1. revert s2. induction H1 as [|c s1 Hc _ IH]; intros s2 H2.
  - destruct H2 as [|d s2 Hd _]; simpl; [done|].
    split; [|discriminate]. intros E. destruct Hd. apply uchar_zero. lia.
  - destruct H2 as [|d s2 Hd Hs2]; simpl.
    + split; [|discriminate]. intros E. destruct Hc. by apply uchar_zero.
    + destruct (decide (c = d)) as [->|Hne].
      * rewrite IH by done. split; congruence.
      * split; [|congruence]. intros E. destruct Hne. apply uchar_inj. lia.
Qed.

Lemma strcmp_zero a b : strcmp a b = 0 <-> cstr a = cstr b.
Proof. apply strcmp_bytes_zero; apply cstr_nul_free. Qed.

(** The test [strcmp(a, b) == 0] decides whether the two strings agree. *)
Lemma strcmp_test a b : (strcmp a b =? 0) = bool_decide (cstr a = cstr b).
Proof.
  destruct (strcmp a b =? 0) eqn:E.
  - symmetry. apply bool_decide_eq_true. apply strcmp_zero. lia.
  - symmetry. apply bool_decide_eq_false. rewrite <- strcmp_zero. lia.
Qed.

End CStrFacts.

(* ================================================================== *)
(** ** Lemmas on the parser *)
(* ================================================================== *)

Section ParserFacts.

Implicit Types (cmd input tok rest k arg : list byte).

Lemma scan_s_nul_free width input tok rest :
  nul_free input -> scan_s width input = Some (tok, rest) ->
  nul_free tok /\ nul_free rest.
Proof.
  unfold scan_s, nul_free. intros Hin.
  pose proof (drop_while_Forall_keep _ isspace _ Hin) as Hd.
  destruct (drop_while isspace input) as [|c s]; [discriminate|].
  intros [= <- <-]. split.
  - apply Forall_take. exact (take_while_Forall_keep _ not_space (c :: s) Hd).
  - by apply Forall_drop.
Qed.

Lemma scan_not_newline_nul_free width input tok rest :
  nul_free input -> scan_not_newline width input = Some (tok, rest) ->
  nul_free tok.
Proof.
  unfold scan_not_newline, nul_free. intros Hin.
  pose proof (take_while_Forall_keep _ not_newline _ Hin) as Ht.
  apply (Forall_take _ width) in Ht.
  destruct (take width (take_while not_newline input)) as [|c s];
    [discriminate|].
  by intros [= <- _].
Qed.

(** [scan_s] fails exactly on input that is white space throughout. *)
Lemma scan_s_None width input :
  (0 < width)%nat ->
  scan_s width input = None <-> Forall (fun c => isspace c = true) input.
Proof.
  intros Hw. unfold scan_s. split.
  - destruct (drop_while isspace input) eqn:E; [|discriminate].
    intros _. by apply drop_while_nil_all.
  - intros H. by rewrite drop_while_all.
Qed.

Lemma parsed_keyword_None cmd :
  parsed_keyword cmd = None <->
  Forall (fun c => isspace c = true) (cstr cmd).
Proof.
  unfold parsed_keyword. rewrite <- (scan_s_None 63) by lia.
  destruct (scan_s 63 (cstr cmd)); simpl; split; congruence.
Qed.

Lemma parsed_keyword_nul_free cmd k :
  parsed_keyword cmd = Some k -> nul_free k.
Proof.
  unfold parsed_keyword.
  destruct (scan_s 63 (cstr cmd)) as [[tok rest]|] eqn:E; [|discriminate].
  intros [= <-].
  by destruct (scan_s_nul_free _ _ _ _ (cstr_nul_free cmd) E).
Qed.

Lemma parsed_argument_nul_free cmd arg :
  parsed_argument cmd = Some arg -> nul_free arg.
Proof.
  unfold parsed_argument.
  destruct (scan_s 63 (cstr cmd)) as [[tok rest]|] eqn:E; [|discriminate].
  simpl.
  destruct (scan_not_newline 1023 (drop_while isspace rest))
    as [[a r]|] eqn:E2; [|discriminate].
  intros [= <-]. eapply scan_not_newline_nul_free; [|exact E2].
  apply drop_while_Forall_keep.
  by destruct (scan_s_nul_free _ _ _ _ (cstr_nul_free cmd) E).
Qed.

Lemma argument_seen_nul_free cmd (argument0 : list byte) :
  nul_free (argument_seen cmd argument0).
Proof.
  unfold argument_seen.
  destruct (parsed_argument cmd) eqn:E; simpl.
  - eapply parsed_argument_nul_free, E.
  - apply cstr_nul_free.
Qed.

(** The argument that [sscanf] stores is the text of the line, cut to
    the field width; the conversion fails exactly when the text is
    empty. *)
Lemma parsed_argument_text cmd k :
  parsed_keyword cmd = Some k ->
  parsed_argument cmd =
    match argument_text cmd with
    | [] => None
    | text => Some (take 1023 text)
    end.
Proof.
  unfold parsed_keyword, parsed_argument, argument_text, scan_not_newline.
  destruct (scan_s 63 (cstr cmd)) as [[tok rest]|]; [|discriminate].
  intros _. simpl.
  by destruct (take_while not_newline (drop_while isspace rest)).
Qed.

(** What [sscanf] returns and stores, in terms of the line. *)
Lemma sscanf_command_None cmd (command0 argument0 : list byte) :
  parsed_keyword cmd = None ->
  sscanf_command cmd command0 argument0 = (-1, command0, argument0).
Proof.
  unfold parsed_keyword, sscanf_command.
  by destruct (scan_s 63 (cstr cmd)) as [[tok rest]|].
Qed.

Lemma sscanf_command_Some cmd (command0 argument0 : list byte) k :
  parsed_keyword cmd = Some k ->
  exists n command argument,
    sscanf_command cmd command0 argument0 = (n, command, argument) /\
    (n <? 1) = false /\
    cstr command = k /\
    cstr argument = argument_seen cmd argument0.
Proof.
  intros Hk. pose proof (parsed_keyword_nul_free _ _ Hk) as Hnf.
  pose proof (argument_seen_nul_free cmd argument0) as Hna.
  revert Hk Hna.
  unfold parsed_keyword, sscanf_command, argument_seen, parsed_argument.
  destruct (scan_s 63 (cstr cmd)) as [[tok rest]|]; [|discriminate].
  intros [= ->]. simpl.
  destruct (scan_not_newline 1023 (drop_while isspace rest))
    as [[a r]|]; simpl; intros Hna.
  - exists 2, (strcpy command0 k), (strcpy argument0 a).
    by rewrite !cstr_strcpy.
  - exists 1, (strcpy command0 k), argument0.
    by rewrite !cstr_strcpy.
Qed.

End ParserFacts.

(* ================================================================== *)
(** ** The dispatcher, branch by branch *)
(* ================================================================== *)

(** The keywords that [handle_command] compares [command] with. *)
Definition vocabulary : list (list byte) :=
  [lit "READ"; lit "DATA"; lit "CLEAR"; lit "STATUS"; lit "SET_ACCESS";
   lit "HELP"].

(** The number of bytes that the DATA branch copies from an argument. *)
Definition stored_length (arg : list byte) : Z :=
  if Z.of_nat (length arg) >=? DEVICE_BUFFER_SIZE
  then DEVICE_BUFFER_SIZE - 1 else Z.of_nat (length arg).

(** The device after the DATA branch has written the C string [arg]. *)
Definition written (arg : list byte) (d : device_t) : device_t :=
  let len := Z.to_nat (stored_length arg) in
  mk_device (<[len := NUL]> (take len arg ++ drop len (buffer d)))
            (stored_length arg) (read_pos d) (write_pos d)
            (access_level d) (read_count d) (incr (write_count d)).

(** The device after the CLEAR branch. *)
Definition cleared (d : device_t) : device_t :=
  mk_device (<[0%nat := NUL]> (buffer d)) 0 0 0
            (access_level d) (read_count d) (write_count d).

(** The responses that are formatted from the device. *)
Definition read_response (d : device_t) : list byte :=
  if buffer_size d =? 0 then lit "BUFFER_EMPTY"
  else snprintf (Z.to_nat (DEVICE_BUFFER_SIZE + 64))
         (lit "DATA: " ++ fmt_prec_s (to_int (buffer_size d)) (buffer d)).

Definition written_response (arg : list byte) : list byte :=
  snprintf 64 (lit "WRITTEN: " ++ fmt_u (stored_length arg) ++ lit " bytes").

Definition status_response (d : device_t) : list byte :=
  snprintf 256
    (lit "STATUS: buffer_size=" ++ fmt_u (buffer_size d) ++
     lit ", reads=" ++ fmt_u (read_count d) ++
     lit ", writes=" ++ fmt_u (write_count d) ++
     lit ", access=" ++
     (if negb (access_level d =? 0) then lit "read-write"
      else lit "read-only")).

(** A world after one more response to [fd]. *)
Definition respond (fd : Z) (text : list byte) (d : device_t) (w : world)
  : world :=
  mk_world d (sent w ++ [(fd, cstr text)]).

Ltac eval_tests :=
  repeat match goal with
  | |- context [bool_decide (?x = ?y)] =>
      let b := eval vm_compute in (bool_decide (x = y)) in
      match b with
      | true =>
          rewrite (bool_decide_eq_true_2 (x = y))
            by (vm_compute; reflexivity)
      | false =>
          rewrite (bool_decide_eq_false_2 (x = y))
            by (vm_compute; discriminate)
      end
  end.

Ltac run_monad :=
  unfold bind, ret, send_response, update_device, get_device;
  cbn [device sent fst snd].

Ltac dispatch Hk :=
  let n := fresh "n" in
  let command := fresh "command" in
  let argument := fresh "argument" in
  let Hs := fresh "Hs" in
  let Hn := fresh "Hn" in
  let Hc := fresh "Hc" in
  let Ha := fresh "Ha" in
  match type of Hk with
  | parsed_keyword ?cmd = Some _ =>
      match goal with
      | |- context [handle_command _ cmd ?c0 ?a0] =>
          destruct (sscanf_command_Some cmd c0 a0 _ Hk)
            as (n & command & argument & Hs & Hn & Hc & Ha)
      end
  end;
  unfold handle_command; rewrite Hs, Hn;
  rewrite !strcmp_test, ?Hc;
  eval_tests; cbv iota; run_monad.

Section Branches.

Variables (fd : Z) (cmd command0 argument0 : list byte) (w : world).

Lemma handle_command_malformed :
  parsed_keyword cmd = None ->
  handle_command fd cmd command0 argument0 w =
    (-1, respond fd MSG_BAD_FORMAT (device w) w).
Proof.
  intros Hk. unfold handle_command.
  by rewrite (sscanf_command_None _ _ _ Hk).
Qed.

Lemma handle_command_READ :
  parsed_keyword cmd = Some (lit "READ") ->
  handle_command fd cmd command0 argument0 w =
    let d := set_read_count (incr (read_count (device w))) (device w) in
    (0, respond fd (read_response d) d w).
Proof.
  intros Hk. dispatch Hk. unfold respond, read_response.
  by destruct (buffer_size _ =? 0).
Qed.

Lemma handle_command_DATA_read_only :
  parsed_keyword cmd = Some (lit "DATA") ->
  access_level (device w) = 0 ->
  handle_command fd cmd command0 argument0 w =
    (0, respond fd MSG_READ_ONLY (device w) w).
Proof. intros Hk Hro. dispatch Hk. rewrite Hro. reflexivity. Qed.

Lemma handle_command_DATA_read_write :
  parsed_keyword cmd = Some (lit "DATA") ->
  access_level (device w) <> 0 ->
  handle_command fd cmd command0 argument0 w =
    let arg := argument_seen cmd argument0 in
    (0, respond fd (written_response arg) (written arg (device w)) w).
Proof.
  intros Hk Hrw. dispatch Hk.
  apply Z.eqb_neq in Hrw. rewrite Hrw.
  unfold respond, written_response, written, stored_length, memcpy, strlen.
  cbn [buffer buffer_size read_pos write_pos access_level read_count
       write_count set_buffer set_buffer_size set_write_count].
  rewrite <- Ha.
  set (len := if _ >=? _ then _ else _).
  rewrite (cstr_take_prefix argument (Z.to_nat len)); [done|].
  subst len. unfold DEVICE_BUFFER_SIZE. destruct (_ >=? _) eqn:E; lia.
Qed.

Lemma handle_command_CLEAR_read_only :
  parsed_keyword cmd = Some (lit "CLEAR") ->
  access_level (device w) = 0 ->
  handle_command fd cmd command0 argument0 w =
    (0, respond fd MSG_READ_ONLY (device w) w).
Proof. intros Hk Hro. dispatch Hk. rewrite Hro. reflexivity. Qed.

Lemma handle_command_CLEAR_read_write :
  parsed_keyword cmd = Some (lit "CLEAR") ->
  access_level (device w) <> 0 ->
  handle_command fd cmd command0 argument0 w =
    (0, respond fd (lit "BUFFER_CLEARED") (cleared (device w)) w).
Proof.
  intros Hk Hrw. dispatch Hk. apply Z.eqb_neq in Hrw. rewrite Hrw.
  reflexivity.
Qed.

Lemma handle_command_STATUS :
  parsed_keyword cmd = Some (lit "STATUS") ->
  handle_command fd cmd command0 argument0 w =
    (0, respond fd (status_response (device w)) (device w) w).
Proof. intros Hk. dispatch Hk. reflexivity. Qed.

Lemma handle_command_SET_ACCESS_read_only :
  parsed_keyword cmd = Some (lit "SET_ACCESS") ->
  argument_seen cmd argument0 = lit "read-only" ->
  handle_command fd cmd command0 argument0 w =
    (0, respond fd (lit "ACCESS_SET: read-only")
          (set_access_level 0 (device w)) w).
Proof.
  intros Hk Harg. dispatch Hk. rewrite Ha, Harg.
  eval_tests. cbv iota. run_monad. reflexivity.
Qed.

Lemma handle_command_SET_ACCESS_read_write :
  parsed_keyword cmd = Some (lit "SET_ACCESS") ->
  argument_seen cmd argument0 = lit "read-write" ->
  handle_command fd cmd command0 argument0 w =
    (0, respond fd (lit "ACCESS_SET: read-write")
          (set_access_level 1 (device w)) w).
Proof.
  intros Hk Harg. dispatch Hk. rewrite Ha, Harg.
  eval_tests. cbv iota. run_monad. reflexivity.
Qed.

Lemma handle_command_SET_ACCESS_invalid :
  parsed_keyword cmd = Some (lit "SET_ACCESS") ->
  argument_seen cmd argument0 <> lit "read-only" ->
  argument_seen cmd argument0 <> lit "read-write" ->
  handle_command fd cmd command0 argument0 w =
    (0, respond fd MSG_BAD_ACCESS (device w) w).
Proof.
  intros Hk Hro Hrw. dispatch Hk. rewrite Ha.
  rewrite !bool_decide_eq_false_2 by assumption. reflexivity.
Qed.

Lemma handle_command_HELP :
  parsed_keyword cmd = Some (lit "HELP") ->
  handle_command fd cmd command0 argument0 w =
    (0, respond fd MSG_HELP (device w) w).
Proof. intros Hk. dispatch Hk. reflexivity. Qed.

Lemma handle_command_unknown k :
  parsed_keyword cmd = Some k ->
  k ∉ vocabulary ->
  handle_command fd cmd command0 argument0 w =
    (0, respond fd MSG_UNKNOWN (device w) w).
Proof.
  intros Hk Hv. dispatch Hk.
  unfold vocabulary in Hv. rewrite !not_elem_of_cons in Hv.
  destruct Hv as (H1 & H2 & H3 & H4 & H5 & H6 & _).
  rewrite !bool_decide_eq_false_2 by assumption. reflexivity.
Qed.

End Branches.

(* ================================================================== *)
(** ** The texts of the responses *)
(* ================================================================== *)

Lemma cstr_MSG_BAD_FORMAT : cstr MSG_BAD_FORMAT = MSG_BAD_FORMAT.
Proof. vm_compute. reflexivity. Qed.


Lemma cstr_MSG_BAD_ACCESS : cstr MSG_BAD_ACCESS = MSG_BAD_ACCESS.
Proof. vm_compute. reflexivity. Qed.

Lemma cstr_MSG_UNKNOWN : cstr MSG_UNKNOWN = MSG_UNKNOWN.
Proof. vm_compute. reflexivity. Qed.

Lemma cstr_MSG_HELP : cstr MSG_HELP = MSG_HELP.
Proof. vm_compute. reflexivity. Qed.

(** A formatted text that starts with a byte other than NUL is sent as a
    response that is not empty. *)
Lemma cstr_snprintf_cons (size : nat) c text :
  (2 <= size)%nat -> c <> NUL -> cstr (snprintf size (c :: text)) <> [].
Proof.
  intros Hs Hc. unfold snprintf, cstr.
  destruct (size - 1)%nat as [|n] eqn:E; [lia|]. simpl.
  apply not_nul_true in Hc. by rewrite Hc.
Qed.

Lemma nul_free_app s1 s2 : nul_free s1 -> nul_free s2 -> nul_free (s1 ++ s2).
Proof. unfold nul_free. intros. by apply Forall_app. Qed.

Lemma nul_free_take (n : nat) s : nul_free s -> nul_free (take n s).
Proof. unfold nul_free. apply Forall_take. Qed.

(** The decimal digits of a number hold no NUL. *)
Lemma string_of_uint_nul_free u :
  nul_free (lit (NilEmpty.string_of_uint u)).
Proof.
  unfold nul_free, lit.
  induction u; simpl; constructor; try done; try apply IHu.
Qed.

Lemma fmt_u_nul_free n : nul_free (fmt_u n).
Proof. apply string_of_uint_nul_free. Qed.

(** A length that the DATA branch can store prints in at most 4 digits. *)
Lemma fmt_u_short n :
  0 <= n <= DEVICE_BUFFER_SIZE - 1 -> (length (fmt_u n) <= 4)%nat.
Proof.
  intros Hn.
  assert (forallb (fun k => Nat.leb (length (fmt_u (Z.of_nat k))) 4)
            (seq 0 1024) = true) as Hall by (vm_compute; reflexivity).
  rewrite forallb_forall in Hall.
  specialize (Hall (Z.to_nat n)).
  rewrite Z2Nat.id in Hall by lia.
  apply Nat.leb_le, Hall, in_seq. unfold DEVICE_BUFFER_SIZE in Hn. lia.
Qed.

Lemma stored_length_range arg :
  0 <= stored_length arg <= DEVICE_BUFFER_SIZE - 1 /\
  stored_length arg <= Z.of_nat (length arg).
Proof.
  unfold stored_length, DEVICE_BUFFER_SIZE.
  destruct (_ >=? _) eqn:E; lia.
Qed.

Lemma stored_length_small arg :
  Z.of_nat (length arg) <= DEVICE_BUFFER_SIZE - 1 ->
  stored_length arg = Z.of_nat (length arg).
Proof.
  unfold stored_length, DEVICE_BUFFER_SIZE. destruct (_ >=? _) eqn:E; lia.
Qed.

Lemma stored_length_large arg :
  DEVICE_BUFFER_SIZE - 1 < Z.of_nat (length arg) ->
  stored_length arg = DEVICE_BUFFER_SIZE - 1.
Proof.
  unfold stored_length, DEVICE_BUFFER_SIZE. destruct (_ >=? _) eqn:E; lia.
Qed.

(** A literal of the source holds no NUL. *)
Ltac lit_nul_free :=
  match goal with
  | |- nul_free ?l =>
      replace l with (cstr l) by (vm_compute; reflexivity);
      apply cstr_nul_free
  end.

(** The text of the DATA response is sent whole. *)
Lemma cstr_written_response arg :
  cstr (written_response arg) =
  lit "WRITTEN: " ++ fmt_u (stored_length arg) ++ lit " bytes".
Proof.
  unfold written_response, snprintf.
  pose proof (fmt_u_short _ (proj1 (stored_length_range arg))) as Hlen.
  rewrite take_ge.
  - apply cstr_of_nul_free. apply nul_free_app; [|apply nul_free_app].
    + lit_nul_free.
    + apply fmt_u_nul_free.
    + lit_nul_free.
  - rewrite !length_app.
    change (length (lit "WRITTEN: ")) with 9%nat.
    change (length (lit " bytes")) with 6%nat. lia.
Qed.

(* ================================================================== *)
(** ** The device invariant *)
(* ================================================================== *)

Lemma cstr_is_take a : cstr a = take (length (cstr a)) a.
Proof.
  unfold cstr. induction a as [|c a IH]; simpl; [done|].
  destruct (not_nul c); simpl; [by f_equal | done].
Qed.

Lemma cstr_stops a :
  (length (cstr a) < length a)%nat -> a !! length (cstr a) = Some NUL.
Proof.
  unfold cstr. induction a as [|c a IH]; simpl; [lia|].
  destruct (not_nul c) eqn:E; simpl.
  - intros H. apply IH. lia.
  - intros _. f_equal. unfold not_nul, is_nul in E.
    apply Byte.byte_dec_bl. by destruct (Byte.eqb c NUL).
Qed.

Lemma device_ok_content d : device_ok d -> content d = cstr (buffer d).
Proof.
  intros (Hlen & Hsz & Hle). unfold content. rewrite <- Hsz. unfold strlen.
  rewrite Nat2Z.id. symmetry. apply cstr_is_take.
Qed.

Lemma device_ok_terminated d :
  device_ok d -> buffer d !! Z.to_nat (buffer_size d) = Some NUL.
Proof.
  intros (Hlen & Hsz & Hle). rewrite <- Hsz. unfold strlen.
  rewrite Nat2Z.id. apply cstr_stops.
  unfold strlen, DEVICE_BUFFER_SIZE in *. lia.
Qed.

Lemma device_ok_size d : device_ok d -> 0 <= buffer_size d <= DEVICE_BUFFER_SIZE - 1.
Proof. intros (Hlen & Hsz & Hle). unfold strlen in Hsz. lia. Qed.

Lemma device_init_ok : device_ok device_init.
Proof.
  split; [|split].
  - vm_compute. reflexivity.
  - vm_compute. reflexivity.
  - vm_compute. discriminate.
Qed.

(** The buffer after the DATA branch: the stored bytes, a NUL, and the
    old bytes behind it. *)
Lemma written_buffer arg d :
  Z.of_nat (length (buffer d)) = DEVICE_BUFFER_SIZE ->
  let len := Z.to_nat (stored_length arg) in
  buffer (written arg d) = take len arg ++ NUL :: drop (S len) (buffer d).
Proof.
  intros Hlen len. unfold written. cbn [buffer]. fold len.
  pose proof (stored_length_range arg) as [Hr Hl].
  unfold DEVICE_BUFFER_SIZE in *.
  assert (length (take len arg) = len) as Htl
    by (rewrite length_take; subst len; lia).
  rewrite insert_app_r_alt by lia. rewrite Htl, Nat.sub_diag.
  f_equal.
  destruct (drop len (buffer d)) as [|c t] eqn:E.
  - apply (f_equal length) in E. rewrite length_drop in E.
    simpl in E. subst len. lia.
  - simpl. f_equal.
    change t with (drop 1 (c :: t)). rewrite <- E, drop_drop.
    f_equal. lia.
Qed.

Lemma device_ok_written arg d :
  nul_free arg -> device_ok d -> device_ok (written arg d).
Proof.
  intros Hnf (Hlen & Hsz & Hle).
  pose proof (stored_length_range arg) as [Hr Hl].
  pose proof (written_buffer arg d Hlen) as Hb. cbv zeta in Hb.
  unfold device_ok. rewrite Hb. unfold strlen.
  rewrite cstr_app_nul by (by apply nul_free_take).
  rewrite length_app, length_take. cbn [length].
  rewrite length_drop. unfold written; cbn [buffer_size].
  unfold DEVICE_BUFFER_SIZE in *. lia.
Qed.

Lemma cleared_buffer d :
  Z.of_nat (length (buffer d)) = DEVICE_BUFFER_SIZE ->
  buffer (cleared d) = NUL :: drop 1 (buffer d).
Proof.
  unfold cleared, DEVICE_BUFFER_SIZE. cbn [buffer].
  destruct (buffer d); simpl; [lia | done].
Qed.

Lemma device_ok_cleared d : device_ok d -> device_ok (cleared d).
Proof.
  intros (Hlen & Hsz & Hle). unfold device_ok.
  rewrite (cleared_buffer d Hlen). unfold strlen.
  change (cstr (NUL :: drop 1 (buffer d))) with (@nil byte).
  cbn [length]. rewrite length_drop. unfold cleared; cbn [buffer_size].
  unfold DEVICE_BUFFER_SIZE in *. lia.
Qed.

(* ================================================================== *)
(** ** Every call of handle_command, as one step of the device *)
(* ================================================================== *)

(** [outcome cmd argument0 d ret text d']: on the command string [cmd],
    with [argument0] in the local array, a device [d] becomes [d'], the
    text [text] is handed to [send_response] and [ret] is returned. *)
Inductive outcome (cmd argument0 : list byte) (d : device_t)
  : Z -> list byte -> device_t -> Prop :=
| out_malformed :
    parsed_keyword cmd = None ->
    outcome cmd argument0 d (-1) MSG_BAD_FORMAT d
| out_read :
    parsed_keyword cmd = Some (lit "READ") ->
    let d' := set_read_count (incr (read_count d)) d in
    outcome cmd argument0 d 0 (read_response d') d'
| out_data_denied :
    parsed_keyword cmd = Some (lit "DATA") -> access_level d = 0 ->
    outcome cmd argument0 d 0 MSG_READ_ONLY d
| out_data :
    parsed_keyword cmd = Some (lit "DATA") -> access_level d <> 0 ->
    let arg := argument_seen cmd argument0 in
    outcome cmd argument0 d 0 (written_response arg) (written arg d)
| out_clear_denied :
    parsed_keyword cmd = Some (lit "CLEAR") -> access_level d = 0 ->
    outcome cmd argument0 d 0 MSG_READ_ONLY d
| out_clear :
    parsed_keyword cmd = Some (lit "CLEAR") -> access_level d <> 0 ->
    outcome cmd argument0 d 0 (lit "BUFFER_CLEARED") (cleared d)
| out_status :
    parsed_keyword cmd = Some (lit "STATUS") ->
    outcome cmd argument0 d 0 (status_response d) d
| out_access_read_only :
    parsed_keyword cmd = Some (lit "SET_ACCESS") ->
    argument_seen cmd argument0 = lit "read-only" ->
    outcome cmd argument0 d 0 (lit "ACCESS_SET: read-only")
            (set_access_level 0 d)
| out_access_read_write :
    parsed_keyword cmd = Some (lit "SET_ACCESS") ->
    argument_seen cmd argument0 = lit "read-write" ->
    outcome cmd argument0 d 0 (lit "ACCESS_SET: read-write")
            (set_access_level 1 d)
| out_access_invalid :
    parsed_keyword cmd = Some (lit "SET_ACCESS") ->
    argument_seen cmd argument0 <> lit "read-only" ->
    argument_seen cmd argument0 <> lit "read-write" ->
    outcome cmd argument0 d 0 MSG_BAD_ACCESS d
| out_help :
    parsed_keyword cmd = Some (lit "HELP") ->
    outcome cmd argument0 d 0 MSG_HELP d
| out_unknown k :
    parsed_keyword cmd = Some k -> k ∉ vocabulary ->
    outcome cmd argument0 d 0 MSG_UNKNOWN d.

Lemma handle_command_outcome fd cmd command0 argument0 w :
  exists ret text d',
    handle_command fd cmd command0 argument0 w = (ret, respond fd text d' w)
    /\ outcome cmd argument0 (device w) ret text d'.
Proof.
  destruct (parsed_keyword cmd) as [k|] eqn:Hk.
  2: { eexists _, _, _. split;
         [by apply handle_command_malformed | by constructor]. }
  destruct (decide (k ∈ vocabulary)) as [Hin|Hout].
  2: { eexists _, _, _. split;
         [by eapply handle_command_unknown | by econstructor]. }
  unfold vocabulary in Hin. rewrite !elem_of_cons in Hin.
  destruct Hin as [->|[->|[->|[->|[->|[->|Hnil]]]]]].
  - eexists _, _, _. split;
      [by apply handle_command_READ | by constructor].
  - destruct (decide (access_level (device w) = 0)).
    + eexists _, _, _. split;
        [by apply handle_command_DATA_read_only | by constructor].
    + eexists _, _, _. split;
        [by apply handle_command_DATA_read_write | by constructor].
  - destruct (decide (access_level (device w) = 0)).
    + eexists _, _, _. split;
        [by apply handle_command_CLEAR_read_only | by apply out_clear_denied].
    + eexists _, _, _. split;
        [by apply handle_command_CLEAR_read_write | by apply out_clear].
  - eexists _, _, _. split;
      [by apply handle_command_STATUS | by apply out_status].
  - destruct (decide (argument_seen cmd argument0 = lit "read-only")).
    { eexists _, _, _. split;
        [by apply handle_command_SET_ACCESS_read_only
        | by apply out_access_read_only]. }
    destruct (decide (argument_seen cmd argument0 = lit "read-write")).
    { eexists _, _, _. split;
        [by apply handle_command_SET_ACCESS_read_write
        | by apply out_access_read_write]. }
    eexists _, _, _. split;
      [by apply handle_command_SET_ACCESS_invalid
      | by apply out_access_invalid].
  - eexists _, _, _. split;
      [by apply handle_command_HELP | by apply out_help].
  - by apply elem_of_nil in Hnil.
Qed.

(* ================================================================== *)
(** ** Runs: what every call keeps *)
(* ================================================================== *)

(** [w] with the access level set to [m]. *)
Definition with_access (m : Z) (w : world) : world :=
  mk_world (set_access_level m (device w)) (sent w).


Lemma serve_cons r rs w :
  snd (serve (r :: rs) w) = snd (serve rs (snd (handle r w))).
Proof. simpl. unfold bind. by destruct (handle r w). Qed.

Lemma serve_app rs1 rs2 w :
  snd (serve (rs1 ++ rs2) w) = snd (serve rs2 (snd (serve rs1 w))).
Proof.
  revert w. induction rs1 as [|r rs1 IH]; intros w; [done|].
  rewrite <- app_comm_cons, !serve_cons. apply IH.
Qed.

Lemma handle_outcome r w :
  exists ret text d',
    handle r w = (ret, respond (req_fd r) text d' w) /\
    outcome (req_cmd r) (req_argument0 r) (device w) ret text d'.
Proof. apply handle_command_outcome. Qed.

Lemma outcome_ok cmd argument0 d ret text d' :
  outcome cmd argument0 d ret text d' -> device_ok d -> device_ok d'.
Proof.
  intros H Hok. destruct H; try exact Hok.
  - apply device_ok_written; [apply argument_seen_nul_free | exact Hok].
  - by apply device_ok_cleared.
Qed.

Lemma handle_ok r w : device_ok (device w) -> device_ok (device (snd (handle r w))).
Proof.
  intros Hok. destruct (handle_outcome r w) as (ret & text & d' & -> & Ho).
  simpl. eapply outcome_ok; eauto.
Qed.

Lemma serve_ok rs w :
  device_ok (device w) -> device_ok (device (snd (serve rs w))).
Proof.
  revert w. induction rs as [|r rs IH]; intros w Hok; [exact Hok|].
  rewrite serve_cons. by apply IH, handle_ok.
Qed.



(** The text of every response is sent whole and is not empty. *)
Lemma outcome_text_not_empty cmd argument0 d ret text d' :
  outcome cmd argument0 d ret text d' -> cstr text <> [].
Proof.
  intros H. destruct H.
  1, 3, 5, 6, 8-12: vm_compute; discriminate.
  - unfold read_response. destruct (buffer_size d' =? 0).
    + vm_compute. discriminate.
    + apply (cstr_snprintf_cons _ "D"%byte); [vm_compute; lia | done].
  - apply (cstr_snprintf_cons _ "W"%byte); [lia | done].
  - apply (cstr_snprintf_cons _ "S"%byte); [lia | done].
Qed.

Lemma outcome_ret cmd argument0 d ret text d' :
  outcome cmd argument0 d ret text d' -> ret = 0 \/ ret = -1.
Proof. intros H. destruct H; auto. Qed.

(** Under the invariant the READ response carries the whole content. *)
Lemma cstr_read_response d :
  device_ok d ->
  cstr (read_response d) =
  if buffer_size d =? 0 then lit "BUFFER_EMPTY"
  else lit "DATA: " ++ content d.
Proof.
  intros Hok. unfold read_response.
  destruct (buffer_size d =? 0); [vm_compute; reflexivity|].
  pose proof (device_ok_size d Hok) as Hsz.
  pose proof (device_ok_content d Hok) as Hc.
  destruct Hok as (Hlen & Hstr & _).
  unfold DEVICE_BUFFER_SIZE in *.
  assert (to_int (buffer_size d) = buffer_size d) as ->.
  { unfold to_int. rewrite Z.mod_small by lia.
    destruct (_ <? _) eqn:E; lia. }
  unfold fmt_prec_s. destruct (buffer_size d <? 0) eqn:E; [lia|].
  assert (take (Z.to_nat (buffer_size d)) (cstr (buffer d)) = content d)
    as ->.
  { rewrite Hc. apply take_ge. unfold strlen in Hstr. lia. }
  assert (length (content d) <= 1023)%nat as Hcl.
  { unfold content. rewrite length_take. lia. }
  unfold snprintf. rewrite take_ge.
  - apply cstr_of_nul_free, nul_free_app; [lit_nul_free|].
    rewrite Hc. apply cstr_nul_free.
  - rewrite length_app. change (length (lit "DATA: ")) with 6%nat.
    change (Z.to_nat (1024 + 64) - 1)%nat with 1087%nat. lia.
Qed.

(* ================================================================== *)
(** ** The properties of the specification *)
(* ================================================================== *)




(** C2.  A READ adds one to [read_count] (an unsigned long), whether or
    not the buffer is empty, leaves the buffer and [buffer_size] as they
    are, and answers BUFFER_EMPTY when [buffer_size] is 0 and otherwise
    DATA: followed by the [buffer_size] bytes of the buffer. *)
Theorem C2_read fd cmd command0 argument0 w :
  device_ok (device w) ->
  parsed_keyword cmd = Some (lit "READ") ->
  let w' := snd (handle_command fd cmd command0 argument0 w) in
  read_count (device w') = (read_count (device w) + 1) mod 2 ^ 64 /\
  buffer (device w') = buffer (device w) /\
  buffer_size (device w') = buffer_size (device w) /\
  sent w' =
    sent w ++ [(fd, if buffer_size (device w) =? 0 then lit "BUFFER_EMPTY"
                    else lit "DATA: " ++ content (device w))].
Proof.
  intros Hok Hk w'. subst w'. rewrite (handle_command_READ _ _ _ _ _ Hk).
  cbv zeta. unfold respond. cbn [snd device sent].
  rewrite cstr_read_response by exact Hok.
  by repeat split.
Qed.

Lemma C2_read_witness :
  let w' := snd (handle_command 3 (lit "READ") [] [] initial_world) in
  read_count (device w') = (0 + 1) mod 2 ^ 64 /\
  buffer (device w') = buffer device_init /\
  buffer_size (device w') = buffer_size device_init /\
  sent w' = [] ++ [(3, if buffer_size device_init =? 0
                       then lit "BUFFER_EMPTY"
                       else lit "DATA: " ++ content device_init)].
Proof.
  apply (C2_read 3 (lit "READ") [] [] initial_world).
  - exact device_init_ok.
  - vm_compute. reflexivity.
Defined.

(** C3 fails on a DATA line without an argument: [sscanf] returns 1 and
    leaves the array [argument] as it was, and the DATA branch then
    stores what the array holds.  With "hello" left in the array the
    line DATA stores 5 bytes and answers WRITTEN: 5 bytes, although the
    line carries no argument. *)
Lemma C3_bare_DATA_stores_stale_argument :
  let w' := snd (handle_command 3 (lit "DATA") []
                   (lit "hello" ++ [NUL]) initial_world) in
  argument_text (lit "DATA") = [] /\
  parsed_argument (lit "DATA") = None /\
  content (device w') = lit "hello" /\
  buffer_size (device w') = 5 /\
  write_count (device w') = 1 /\
  sent w' = [(3, lit "WRITTEN: 5 bytes")].
Proof. vm_compute. by repeat split. Qed.

(** The dispatcher by itself: every call, on any command string and in
    any state, makes exactly one call of [send_response], for the calling
    client and with a text that is not empty, and returns 0 or -1.  What
    [send] then does to the process is the subject of the last part of
    this file. *)
Lemma handle_command_one_response fd cmd command0 argument0 w :
  exists ret text d',
    handle_command fd cmd command0 argument0 w =
      (ret, mk_world d' (sent w ++ [(fd, text)])) /\
    text <> [] /\ (ret = 0 \/ ret = -1).
Proof.
  destruct (handle_command_outcome fd cmd command0 argument0 w)
    as (ret & text & d' & Hh & Ho).
  exists ret, (cstr text), d'. split; [exact Hh|]. split.
  - eapply outcome_text_not_empty, Ho.
  - eapply outcome_ret, Ho.
Qed.

(** C5.  A CLEAR in read-write mode sets [buffer_size] to 0 and empties
    the buffer, and leaves [read_count], [write_count] and
    [access_level] as they are. *)
Theorem C5_clear fd cmd command0 argument0 w :
  parsed_keyword cmd = Some (lit "CLEAR") ->
  access_level (device w) <> 0 ->
  let d := device w in
  let d' := device (snd (handle_command fd cmd command0 argument0 w)) in
  buffer_size d' = 0 /\ cstr (buffer d') = [] /\ content d' = [] /\
  read_count d' = read_count d /\ write_count d' = write_count d /\
  access_level d' = access_level d.
Proof.
  intros Hk Hrw d d'. subst d d'.
  rewrite (handle_command_CLEAR_read_write _ _ _ _ _ Hk Hrw).
  unfold respond, cleared, content. cbn.
  repeat split. by destruct (buffer (device w)).
Qed.

Lemma C5_clear_witness :
  let d := device initial_world in
  let d' := device (snd (handle_command 3 (lit "CLEAR") [] []
                           initial_world)) in
  buffer_size d' = 0 /\ cstr (buffer d') = [] /\ content d' = [] /\
  read_count d' = read_count d /\ write_count d' = write_count d /\
  access_level d' = access_level d.
Proof.
  apply (C5_clear 3 (lit "CLEAR") [] [] initial_world).
  - vm_compute. reflexivity.
  - vm_compute. discriminate.
Defined.

(** C6, as stated, fails on the text of the error: the response to an
    argument that is no mode token is not the English line. *)
Lemma C6_error_line_differs :
  sent (snd (handle_command 3 (lit "SET_ACCESS foo") [] [] initial_world))
  <> [(3, lit "ERROR: Invalid access level (read-only/read-write)")].
Proof. vm_compute. discriminate. Qed.

(** C6, amended.  For a SET_ACCESS line that carries an argument: when
    the argument is neither read-only nor read-write, the whole device is
    unchanged and the response is the line
    "ERROR: Неверный уровень доступа (read-only/read-write)"; when it is
    one of the two tokens, [access_level] is set to it (0 for read-only,
    1 for read-write), nothing else changes, and the response is
    ACCESS_SET: followed by the token. *)
Theorem C6_set_access fd cmd command0 argument0 w arg :
  parsed_keyword cmd = Some (lit "SET_ACCESS") ->
  parsed_argument cmd = Some arg ->
  let w' := snd (handle_command fd cmd command0 argument0 w) in
  (arg <> lit "read-only" -> arg <> lit "read-write" ->
     device w' = device w /\
     sent w' = sent w ++ [(fd, MSG_BAD_ACCESS)]) /\
  (arg = lit "read-only" ->
     device w' = set_access_level 0 (device w) /\
     sent w' = sent w ++ [(fd, lit "ACCESS_SET: read-only")]) /\
  (arg = lit "read-write" ->
     device w' = set_access_level 1 (device w) /\
     sent w' = sent w ++ [(fd, lit "ACCESS_SET: read-write")]).
Proof.
  intros Hk Ha w'. subst w'.
  assert (argument_seen cmd argument0 = arg) as Hseen
    by (unfold argument_seen; by rewrite Ha).
  split; [|split].
  - intros H1 H2.
    rewrite (handle_command_SET_ACCESS_invalid fd cmd command0 argument0 w)
      by (try rewrite Hseen; assumption).
    unfold respond. cbn [snd device sent]. by rewrite cstr_MSG_BAD_ACCESS.
  - intros ->.
    by rewrite (handle_command_SET_ACCESS_read_only _ _ _ _ _ Hk Hseen).
  - intros ->.
    by rewrite (handle_command_SET_ACCESS_read_write _ _ _ _ _ Hk Hseen).
Qed.

Lemma C6_set_access_witness :
  let w' := snd (handle_command 3 (lit "SET_ACCESS foo") [] []
                   initial_world) in
  device w' = device_init /\ sent w' = [] ++ [(3, MSG_BAD_ACCESS)].
Proof.
  refine (proj1 (C6_set_access 3 (lit "SET_ACCESS foo") [] []
                   initial_world (lit "foo") _ _) _ _).
  - vm_compute. reflexivity.
  - vm_compute. reflexivity.
  - vm_compute. discriminate.
  - vm_compute. discriminate.
Defined.

(** C7, as stated, fails on the text of the error: the response to the
    empty line is not the English line. *)
Lemma C7_error_line_differs :
  sent (snd (handle_command 3 [] [] [] initial_world))
  <> [(3, lit "ERROR: Invalid command format")].
Proof. vm_compute. discriminate. Qed.

(** C7, amended.  For a line that holds no keyword (it is empty or white
    space throughout), [sscanf] reports a failure and stores nothing, and
    the dispatcher answers with the line "ERROR: Неверный формат команды",
    returns -1 and leaves the device as it is. *)
Theorem C7_malformed fd cmd command0 argument0 w :
  Forall (fun c => isspace c = true) (cstr cmd) ->
  sscanf_command cmd command0 argument0 = (-1, command0, argument0) /\
  handle_command fd cmd command0 argument0 w =
    (-1, mk_world (device w) (sent w ++ [(fd, MSG_BAD_FORMAT)])).
Proof.
  intros Hsp. apply parsed_keyword_None in Hsp. split.
  - by apply sscanf_command_None.
  - rewrite (handle_command_malformed _ _ _ _ _ Hsp).
    unfold respond. by rewrite cstr_MSG_BAD_FORMAT.
Qed.

Lemma C7_malformed_witness :
  sscanf_command (lit "  ") [] [] = (-1, [], []) /\
  handle_command 3 (lit "  ") [] [] initial_world =
    (-1, mk_world device_init ([] ++ [(3, MSG_BAD_FORMAT)])).
Proof.
  apply (C7_malformed 3 (lit "  ") [] [] initial_world).
  vm_compute. repeat constructor.
Defined.

(** C8, as stated, fails on the text of the error: the response to the
    keyword FOO is not the English line. *)
Lemma C8_error_line_differs :
  sent (snd (handle_command 3 (lit "FOO") [] [] initial_world))
  <> [(3, lit "ERROR: Unknown command. Use HELP for command list.")].
Proof. vm_compute. discriminate. Qed.

(** C8, amended.  For a keyword outside READ, DATA, CLEAR, STATUS,
    SET_ACCESS, HELP the response is the line
    "ERROR: Неизвестная команда. Используйте HELP для справки." and the
    device is unchanged: buffer, buffer_size, read_count, write_count and
    access_level. *)
Theorem C8_unknown fd cmd command0 argument0 w k :
  parsed_keyword cmd = Some k ->
  k ∉ vocabulary ->
  handle_command fd cmd command0 argument0 w =
    (0, mk_world (device w) (sent w ++ [(fd, MSG_UNKNOWN)])).
Proof.
  intros Hk Hv. rewrite (handle_command_unknown _ _ _ _ _ _ Hk Hv).
  unfold respond. by rewrite cstr_MSG_UNKNOWN.
Qed.

Lemma C8_unknown_witness :
  handle_command 3 (lit "FOO") [] [] initial_world =
    (0, mk_world device_init ([] ++ [(3, MSG_UNKNOWN)])).
Proof.
  apply (C8_unknown 3 (lit "FOO") [] [] initial_world (lit "FOO")).
  - vm_compute. reflexivity.
  - unfold vocabulary. rewrite !not_elem_of_cons.
    repeat split; try (vm_compute; discriminate). apply not_elem_of_nil.
Defined.

(** C9.  After [device_init] and after every command that the
    dispatcher handles, [buffer_size] is at most DEVICE_BUFFER_SIZE - 1
    (1023) and the buffer holds a NUL at index [buffer_size]. *)
Theorem C9_buffer_terminated (rs : list request) :
  let d := device (snd (serve rs initial_world)) in
  0 <= buffer_size d <= DEVICE_BUFFER_SIZE - 1 /\
  buffer d !! Z.to_nat (buffer_size d) = Some NUL.
Proof.
  intros d.
  assert (device_ok d) as Hok by (apply serve_ok, device_init_ok).
  split; [by apply device_ok_size | by apply device_ok_terminated].
Qed.

(* ================================================================== *)
(** ** The line end in client_thread *)
(* ================================================================== *)

Lemma cstr_app_nul_any s rest : cstr (s ++ NUL :: rest) = cstr s.
Proof.
  unfold cstr. induction s as [|c s IH]; simpl; [done|].
  destruct (not_nul c); [by f_equal | done].
Qed.

Lemma cstr_cut a (i : nat) :
  a !! i = Some NUL -> cstr a = cstr (take i a).
Proof.
  intros H. rewrite <- (take_drop_middle a i NUL H) at 1.
  apply cstr_app_nul_any.
Qed.

Lemma parsed_keyword_cstr a b :
  cstr a = cstr b -> parsed_keyword a = parsed_keyword b.
Proof. unfold parsed_keyword. by intros ->. Qed.

Lemma parsed_argument_cstr a b :
  cstr a = cstr b -> parsed_argument a = parsed_argument b.
Proof. unfold parsed_argument. by intros ->. Qed.

Lemma load_nat a (i : nat) : load a (Z.of_nat i) = a !! i.
Proof.
  unfold load. destruct (Z.ltb_spec (Z.of_nat i) 0); [lia|].
  by rewrite Nat2Z.id.
Qed.

Lemma store_nat a (i : nat) c :
  (i < length a)%nat -> store a (Z.of_nat i) c = Some (<[i := c]> a).
Proof.
  intros H. unfold store.
  destruct (Z.leb_spec 0 (Z.of_nat i)); [|lia].
  destruct (Z.ltb_spec (Z.of_nat i) (Z.of_nat (length a))); [|lia].
  simpl. by rewrite Nat2Z.id.
Qed.

Lemma recv_into_eq buf msg : recv_into buf msg = msg ++ drop (length msg) buf.
Proof. unfold recv_into, memcpy. by rewrite firstn_all. Qed.

(** The three stores of the loop body, for a message of two bytes or
    more in an array that has room for it and its NUL. *)
Lemma received_command_eq buf0 msg :
  (2 <= length msg < length buf0)%nat ->
  let n := length msg in
  let b1 := <[n := NUL]> (recv_into buf0 msg) in
  let b2 := if decide (msg !! (n - 1)%nat = Some LF)
            then <[(n - 1)%nat := NUL]> b1 else b1 in
  let b3 := if decide (b2 !! (n - 2)%nat = Some CR)
            then <[(n - 2)%nat := NUL]> b2 else b2 in
  received_command buf0 msg = Some b3.
Proof.
  intros Hn n b1 b2 b3. unfold received_command, strip_line_end.
  assert (length (recv_into buf0 msg) = length buf0) as Hlen.
  { rewrite recv_into_eq, length_app, length_drop. lia. }
  rewrite store_nat by lia. fold n. fold b1. simpl.
  assert (length b1 = length buf0) as Hlen1
    by (subst b1; by rewrite length_insert).
  replace (Z.of_nat n - 1) with (Z.of_nat (n - 1)) by lia.
  replace (Z.of_nat n - 2) with (Z.of_nat (n - 2)) by lia.
  rewrite load_nat.
  assert (b1 !! (n - 1)%nat = msg !! (n - 1)%nat) as Hb1.
  { subst b1. rewrite list_lookup_insert_ne by lia.
    rewrite recv_into_eq. apply lookup_app_l. lia. }
  rewrite Hb1.
  destruct (msg !! (n - 1)%nat) as [c|] eqn:Hc.
  2: { apply lookup_ge_None in Hc. lia. }
  simpl.
  assert ((if decide (c = LF) then store b1 (Z.of_nat (n - 1)) NUL
           else Some b1) = Some b2) as ->.
  { subst b2. destruct (decide (c = LF)) as [->|Hne].
    - rewrite decide_True by done. apply store_nat. lia.
    - rewrite decide_False by congruence. done. }
  simpl. rewrite load_nat.
  assert (length b2 = length buf0) as Hlen2.
  { subst b2. case_decide; [by rewrite length_insert | done]. }
  destruct (b2 !! (n - 2)%nat) as [c2|] eqn:Hc2.
  2: { apply lookup_ge_None in Hc2. lia. }
  simpl. subst b3. destruct (decide (c2 = CR)) as [->|Hne].
  - rewrite decide_True by done. apply store_nat. lia.
  - rewrite decide_False by congruence. done.
Qed.

(** C10.  When the byte before the last of a received message is a
    carriage return, the command string handed to the parser is the
    message cut at that byte, whatever the last byte is; a carriage
    return at any other place of the message stays where it is. *)
Theorem C10_carriage_return_before_last (buf0 msg : list byte) :
  Z.of_nat (length buf0) = 1024 ->
  (2 <= length msg <= 1023)%nat ->
  msg !! (length msg - 2)%nat = Some CR ->
  exists buf,
    received_command buf0 msg = Some buf /\
    buf !! (length msg - 2)%nat = Some NUL /\
    take (length msg - 2) buf = take (length msg - 2) msg /\
    cstr buf = cstr (take (length msg - 2) msg) /\
    parsed_keyword buf = parsed_keyword (take (length msg - 2) msg) /\
    parsed_argument buf = parsed_argument (take (length msg - 2) msg) /\
    (forall i : nat, i <> (length msg - 2)%nat ->
       msg !! i = Some CR -> buf !! i = Some CR).
Proof.
  intros Hb Hn Hcr.
  pose proof (received_command_eq buf0 msg ltac:(lia)) as Heq.
  cbv zeta in Heq. set (n := length msg) in *.
  set (b1 := <[n := NUL]> (recv_into buf0 msg)) in *.
  set (b2 := if decide (msg !! (n - 1)%nat = Some LF)
             then <[(n - 1)%nat := NUL]> b1 else b1) in *.
  assert (length b1 = length buf0) as Hlen1.
  { subst b1. rewrite length_insert, recv_into_eq, length_app, length_drop.
    lia. }
  assert (length b2 = length buf0) as Hlen2.
  { subst b2. destruct (decide (msg !! (n - 1)%nat = Some LF));
      [by rewrite length_insert | done]. }
  assert (forall i : nat, (i < n)%nat -> b1 !! i = msg !! i) as Hb1.
  { intros i Hi. subst b1. rewrite list_lookup_insert_ne by lia.
    rewrite recv_into_eq. apply lookup_app_l. lia. }
  assert (forall i : nat, (i < n - 1)%nat -> b2 !! i = msg !! i) as Hb2.
  { intros i Hi. subst b2.
    destruct (decide (msg !! (n - 1)%nat = Some LF)).
    - rewrite list_lookup_insert_ne by lia. apply Hb1. lia.
    - apply Hb1. lia. }
  rewrite decide_True in Heq by (rewrite Hb2 by lia; exact Hcr).
  eexists. split; [exact Heq|].
  assert (take (n - 2) (<[(n - 2)%nat := NUL]> b2) = take (n - 2) msg) as Ht.
  { rewrite take_insert_ge by lia. apply list_eq. intros i.
    destruct (decide (i < n - 2)%nat).
    - rewrite !lookup_take_lt by lia. apply Hb2. lia.
    - by rewrite !lookup_take_ge by lia. }
  assert (<[(n - 2)%nat := NUL]> b2 !! (n - 2)%nat = Some NUL) as Hz
    by (apply list_lookup_insert_eq; lia).
  assert (cstr (<[(n - 2)%nat := NUL]> b2) = cstr (take (n - 2) msg)) as Hc
    by (rewrite (cstr_cut _ _ Hz); by rewrite Ht).
  repeat split; try done.
  - by apply parsed_keyword_cstr.
  - by apply parsed_argument_cstr.
  - intros i Hi Hmi.
    assert (i < n)%nat as Hin by (apply lookup_lt_Some in Hmi; lia).
    rewrite list_lookup_insert_ne by lia.
    subst b2. destruct (decide (msg !! (n - 1)%nat = Some LF)) as [Hlf|Hlf].
    + assert (i <> (n - 1)%nat).
      { intros ->. rewrite Hlf in Hmi. unfold LF, CR in Hmi. discriminate. }
      rewrite list_lookup_insert_ne by lia. rewrite Hb1 by lia. done.
    + rewrite Hb1 by lia. done.
Qed.

Lemma C10_carriage_return_before_last_witness :
  exists buf,
    received_command (replicate 1024 "a"%byte) (lit "X" ++ [CR] ++ lit "Y")
      = Some buf /\
    cstr buf = lit "X" /\
    parsed_keyword buf = Some (lit "X") /\
    parsed_argument buf = None.
Proof.
  destruct (C10_carriage_return_before_last (replicate 1024 "a"%byte)
              (lit "X" ++ [CR] ++ lit "Y"))
    as (buf & H1 & _ & _ & H2 & H3 & H4 & _).
  - vm_compute. reflexivity.
  - vm_compute. lia.
  - vm_compute. reflexivity.
  - exists buf. split; [exact H1|]. split; [exact H2|]. split.
    + exact H3.
    + exact H4.
Defined.

(* ================================================================== *)
(** ** Further lemmas on the dispatcher *)
(* ================================================================== *)

Lemma parsed_argument_length cmd arg :
  parsed_argument cmd = Some arg -> (1 <= length arg <= 1023)%nat.
Proof.
  unfold parsed_argument, scan_not_newline.
  destruct (scan_s 63 (cstr cmd)) as [[tok rest]|]; [|discriminate].
  simpl.
  destruct (take 1023 (take_while not_newline (drop_while isspace rest)))
    as [|c t] eqn:E; [discriminate|].
  intros [= <-]. apply (f_equal length) in E.
  rewrite length_take in E. cbn [length] in *. lia.
Qed.

Lemma content_written arg d :
  Z.of_nat (length (buffer d)) = DEVICE_BUFFER_SIZE ->
  content (written arg d) = take (Z.to_nat (stored_length arg)) arg.
Proof.
  intros Hlen. unfold content.
  rewrite (written_buffer arg d Hlen). unfold written. cbn [buffer_size].
  pose proof (stored_length_range arg) as [Hr Hl].
  rewrite take_app_length'; [done|]. rewrite length_take. lia.
Qed.

(** The READ branch on a device that satisfies the invariant. *)
Lemma handle_command_READ_ok fd cmd command0 argument0 w :
  device_ok (device w) ->
  parsed_keyword cmd = Some (lit "READ") ->
  handle_command fd cmd command0 argument0 w =
    (0, mk_world (set_read_count (incr (read_count (device w))) (device w))
          (sent w ++ [(fd, if buffer_size (device w) =? 0
                           then lit "BUFFER_EMPTY"
                           else lit "DATA: " ++ content (device w))])).
Proof.
  intros Hok Hk. rewrite (handle_command_READ _ _ _ _ _ Hk).
  cbv zeta. unfold respond. by rewrite cstr_read_response by exact Hok.
Qed.

(** The DATA branch in read-write mode on a line that has an argument. *)
Lemma handle_command_DATA_argument fd cmd command0 argument0 w arg :
  device_ok (device w) ->
  access_level (device w) <> 0 ->
  parsed_keyword cmd = Some (lit "DATA") ->
  parsed_argument cmd = Some arg ->
  handle_command fd cmd command0 argument0 w =
    (0, mk_world (written arg (device w))
          (sent w ++ [(fd, lit "WRITTEN: " ++
                           fmt_u (Z.of_nat (length arg)) ++ lit " bytes")]))
  /\ content (written arg (device w)) = arg
  /\ buffer_size (written arg (device w)) = Z.of_nat (length arg)
  /\ device_ok (written arg (device w)).
Proof.
  intros Hok Hrw Hk Ha.
  pose proof (parsed_argument_length _ _ Ha) as Hl.
  assert (argument_seen cmd argument0 = arg) as Hseen
    by (unfold argument_seen; by rewrite Ha).
  rewrite (handle_command_DATA_read_write _ _ _ _ _ Hk Hrw).
  cbv zeta. rewrite Hseen. unfold respond.
  assert (stored_length arg = Z.of_nat (length arg)) as Hsl
    by (apply stored_length_small; unfold DEVICE_BUFFER_SIZE; lia).
  rewrite cstr_written_response, Hsl.
  rewrite content_written by apply Hok. rewrite Hsl, Nat2Z.id, firstn_all.
  assert (device_ok (written arg (device w))) as Hok'.
  { apply device_ok_written; [|exact Hok].
    eapply parsed_argument_nul_free, Ha. }
  by repeat split; try apply Hok'.
Qed.

(* ================================================================== *)
(** ** Further properties of the dispatcher *)
(* ================================================================== *)

(** X1.  A DATA line that carries an argument, in read-write mode: the
    argument that [sscanf] stored (the text of the line cut to 1023
    bytes) becomes the content of the buffer, unmodified, [buffer_size]
    is its length, [write_count] grows by one, the other fields stay,
    and the response is WRITTEN: <length> bytes. *)
Theorem X1_data_stores_argument fd cmd command0 argument0 w arg :
  device_ok (device w) ->
  access_level (device w) <> 0 ->
  parsed_keyword cmd = Some (lit "DATA") ->
  parsed_argument cmd = Some arg ->
  let d := device w in
  let w' := snd (handle_command fd cmd command0 argument0 w) in
  let d' := device w' in
  arg = take 1023 (argument_text cmd) /\
  content d' = arg /\
  buffer_size d' = Z.of_nat (length arg) /\
  write_count d' = (write_count d + 1) mod 2 ^ 64 /\
  read_count d' = read_count d /\ access_level d' = access_level d /\
  sent w' = sent w ++
    [(fd, lit "WRITTEN: " ++ fmt_u (Z.of_nat (length arg)) ++ lit " bytes")].
Proof.
  intros Hok Hrw Hk Ha d w' d'. subst d w' d'.
  destruct (handle_command_DATA_argument fd cmd command0 argument0 w arg
              Hok Hrw Hk Ha) as (-> & Hc & Hs & _).
  cbn [snd device sent]. split.
  { rewrite (parsed_argument_text _ _ Hk) in Ha.
    destruct (argument_text cmd); [discriminate|]. by injection Ha. }
  by repeat split.
Qed.

Lemma X1_data_stores_argument_witness :
  let w' := snd (handle_command 3 (lit "DATA hello") [] [] initial_world) in
  content (device w') = lit "hello" /\
  buffer_size (device w') = 5.
Proof.
  destruct (X1_data_stores_argument 3 (lit "DATA hello") [] []
              initial_world (lit "hello")) as (_ & H1 & H2 & _).
  - exact device_init_ok.
  - vm_compute. discriminate.
  - vm_compute. reflexivity.
  - vm_compute. reflexivity.
  - split; [exact H1 | exact H2].
Defined.

(** X2.  Write, then read: after an accepted DATA with an argument, a
    READ (from any client, with nothing written in between) answers
    DATA: followed by exactly that argument, and the content is still
    there afterwards. *)
Theorem X2_write_then_read fd1 cmd1 c1 a1 fd2 cmd2 c2 a2 w arg :
  device_ok (device w) ->
  access_level (device w) <> 0 ->
  parsed_keyword cmd1 = Some (lit "DATA") ->
  parsed_argument cmd1 = Some arg ->
  parsed_keyword cmd2 = Some (lit "READ") ->
  let w1 := snd (handle_command fd1 cmd1 c1 a1 w) in
  let w2 := snd (handle_command fd2 cmd2 c2 a2 w1) in
  sent w2 = sent w1 ++ [(fd2, lit "DATA: " ++ arg)] /\
  content (device w2) = arg.
Proof.
  intros Hok Hrw Hk1 Ha Hk2 w1 w2. subst w1 w2.
  destruct (handle_command_DATA_argument fd1 cmd1 c1 a1 w arg
              Hok Hrw Hk1 Ha) as (-> & Hc & Hs & Hok').
  cbn [snd]. rewrite handle_command_READ_ok by done.
  cbn [snd device sent]. rewrite Hs, Hc.
  pose proof (parsed_argument_length _ _ Ha) as Hl.
  destruct (Z.eqb_spec (Z.of_nat (length arg)) 0); [lia|]. done.
Qed.

Lemma X2_write_then_read_witness :
  let w1 := snd (handle_command 3 (lit "DATA hello") [] [] initial_world) in
  let w2 := snd (handle_command 4 (lit "READ") [] [] w1) in
  sent w2 = sent w1 ++ [(4, lit "DATA: " ++ lit "hello")] /\
  content (device w2) = lit "hello".
Proof.
  apply (X2_write_then_read 3 (lit "DATA hello") [] [] 4 (lit "READ") [] []
           initial_world (lit "hello")).
  - exact device_init_ok.
  - vm_compute. discriminate.
  - vm_compute. reflexivity.
  - vm_compute. reflexivity.
  - vm_compute. reflexivity.
Defined.

(** X3.  Clear, then read: after an accepted CLEAR, a READ answers
    BUFFER_EMPTY, still counts as a read, and the buffer stays empty. *)
Theorem X3_clear_then_read fd1 cmd1 c1 a1 fd2 cmd2 c2 a2 w :
  access_level (device w) <> 0 ->
  parsed_keyword cmd1 = Some (lit "CLEAR") ->
  parsed_keyword cmd2 = Some (lit "READ") ->
  let w1 := snd (handle_command fd1 cmd1 c1 a1 w) in
  let w2 := snd (handle_command fd2 cmd2 c2 a2 w1) in
  sent w2 = sent w ++ [(fd1, lit "BUFFER_CLEARED"); (fd2, lit "BUFFER_EMPTY")]
  /\ buffer_size (device w2) = 0
  /\ read_count (device w2) = (read_count (device w) + 1) mod 2 ^ 64.
Proof.
  intros Hrw Hk1 Hk2 w1 w2. subst w1 w2.
  rewrite (handle_command_CLEAR_read_write _ _ _ _ _ Hk1 Hrw).
  cbn [snd]. rewrite (handle_command_READ _ _ _ _ _ Hk2).
  unfold respond, read_response, cleared. cbn.
  rewrite <- app_assoc. done.
Qed.

Lemma X3_clear_then_read_witness :
  let w1 := snd (handle_command 3 (lit "CLEAR") [] [] initial_world) in
  let w2 := snd (handle_command 4 (lit "READ") [] [] w1) in
  sent w2 = [] ++ [(3, lit "BUFFER_CLEARED"); (4, lit "BUFFER_EMPTY")]
  /\ buffer_size (device w2) = 0
  /\ read_count (device w2) = (0 + 1) mod 2 ^ 64.
Proof.
  apply (X3_clear_then_read 3 (lit "CLEAR") [] [] 4 (lit "READ") [] []
           initial_world).
  - vm_compute. discriminate.
  - vm_compute. reflexivity.
  - vm_compute. reflexivity.
Defined.

(* ================================================================== *)
(** ** Properties of runs *)
(* ================================================================== *)

(** The request has the keyword [k]. *)
Definition has_keyword (k : list byte) (r : request) : Prop :=
  parsed_keyword (req_cmd r) = Some k.

#[global] Instance has_keyword_dec k r : Decision (has_keyword k r).
Proof. unfold has_keyword. apply _. Defined.

(** What the device can be after [device_init] and any calls that
    follow. *)
Definition device_reachable (d : device_t) : Prop :=
  device_ok d /\
  read_pos d = 0 /\ write_pos d = 0 /\
  (access_level d = 0 \/ access_level d = 1) /\
  0 <= read_count d < ULONG_MODULUS /\
  0 <= write_count d < ULONG_MODULUS.

Lemma incr_range x : 0 <= incr x < ULONG_MODULUS.
Proof. unfold incr, ULONG_MODULUS. apply Z.mod_pos_bound. lia. Qed.

Lemma outcome_reachable cmd argument0 d ret text d' :
  outcome cmd argument0 d ret text d' ->
  device_reachable d -> device_reachable d'.
Proof.
  intros Ho (Hok & Hrp & Hwp & Hal & Hrc & Hwc).
  pose proof (outcome_ok _ _ _ _ _ _ Ho Hok) as Hok'.
  split; [exact Hok'|].
  destruct Ho; cbn; repeat split; auto; try lia; apply incr_range.
Qed.

Lemma serve_reachable rs w :
  device_reachable (device w) ->
  device_reachable (device (snd (serve rs w))).
Proof.
  revert w. induction rs as [|r rs IH]; intros w Hw; [exact Hw|].
  rewrite serve_cons. apply IH.
  destruct (handle_outcome r w) as (ret & text & d' & -> & Ho).
  eapply outcome_reachable; eauto.
Qed.

Lemma device_init_reachable : device_reachable device_init.
Proof.
  split; [exact device_init_ok|]. vm_compute.
  repeat split; auto; discriminate.
Qed.

(** The counters after one call. *)
Lemma outcome_counters cmd argument0 d ret text d' :
  outcome cmd argument0 d ret text d' ->
  read_count d' =
    (if decide (parsed_keyword cmd = Some (lit "READ"))
     then incr (read_count d) else read_count d) /\
  write_count d' =
    (if decide (parsed_keyword cmd = Some (lit "DATA") /\ access_level d <> 0)
     then incr (write_count d) else write_count d).
Proof.
  intros Ho.
  assert (forall k, k ∉ vocabulary ->
            k <> lit "READ" /\ k <> lit "DATA") as Hvoc.
  { intros k Hv. unfold vocabulary in Hv. rewrite !not_elem_of_cons in Hv.
    tauto. }
  destruct Ho;
    match goal with
    | H : parsed_keyword cmd = _ |- _ => rewrite H
    end;
    split; case_decide as E; cbn; try done.
  all: try (exfalso; vm_compute in E; discriminate E).
  all: try (exfalso;
            match type of E with
            | _ /\ _ => destruct E as [E _]; vm_compute in E; discriminate E
            end).
  all: try (exfalso;
            match type of E with
            | _ /\ _ => destruct E as [_ E]; by apply E
            end).
  all: try (exfalso; apply E; by split).
  - injection E as ->. by destruct (Hvoc _ ltac:(eassumption)).
  - destruct E as [E _]. injection E as ->.
    by destruct (Hvoc _ ltac:(eassumption)).
Qed.

(** X4.  Counting reads over a run: after any sequence of calls that
    follows [device_init], [read_count] is the number of calls whose
    keyword was READ (modulo 2^64, the counter being an unsigned long),
    whatever those reads answered and whoever sent them. *)
Theorem X4_read_count_counts_reads (rs : list request) :
  read_count (device (snd (serve rs initial_world))) =
  Z.of_nat (length (filter (has_keyword (lit "READ")) rs)) mod 2 ^ 64.
Proof.
  assert (forall w, 0 <= read_count (device w) < ULONG_MODULUS ->
            read_count (device (snd (serve rs w))) =
            (read_count (device w) +
             Z.of_nat (length (filter (has_keyword (lit "READ")) rs)))
            mod ULONG_MODULUS) as Hgen.
  { induction rs as [|r rs IH]; intros w Hw.
    - cbn. rewrite Z.add_0_r, Z.mod_small; [done | exact Hw].
    - rewrite serve_cons.
      destruct (handle_outcome r w) as (ret & text & d' & Hh & Ho).
      destruct (outcome_counters _ _ _ _ _ _ Ho) as [Hrc _].
      rewrite Hh. cbn [snd].
      rewrite IH; cbn [device respond]; rewrite Hrc.
      + rewrite filter_cons. unfold has_keyword at 2.
        destruct (decide (parsed_keyword (req_cmd r) = Some (lit "READ"))).
        * cbn [length]. unfold incr. rewrite Zplus_mod_idemp_l.
          f_equal. lia.
        * done.
      + case_decide; [apply incr_range | exact Hw]. }
  rewrite Hgen; [done | vm_compute; split; [discriminate | done]].
Qed.

(** X5.  The counters are touched by two branches only: a call adds one
    to [read_count] exactly when its keyword is READ, and one to
    [write_count] exactly when its keyword is DATA and the device is not
    read-only; every other call (malformed, refused, CLEAR, STATUS,
    SET_ACCESS, HELP, unknown) leaves both as they are. *)
Theorem X5_counters_frame fd cmd command0 argument0 w :
  let d := device w in
  let d' := device (snd (handle_command fd cmd command0 argument0 w)) in
  read_count d' =
    (if decide (parsed_keyword cmd = Some (lit "READ"))
     then (read_count d + 1) mod 2 ^ 64 else read_count d) /\
  write_count d' =
    (if decide (parsed_keyword cmd = Some (lit "DATA") /\ access_level d <> 0)
     then (write_count d + 1) mod 2 ^ 64 else write_count d).
Proof.
  intros d d'. subst d d'.
  destruct (handle_command_outcome fd cmd command0 argument0 w)
    as (ret & text & d' & -> & Ho).
  exact (outcome_counters _ _ _ _ _ _ Ho).
Qed.

(** X6.  One response per call, to the caller, in order: after a run the
    clients that were answered are exactly the clients of the calls, in
    the order of the calls. *)
Theorem X6_responses_follow_requests (rs : list request) (w : world) :
  (sent (snd (serve rs w))).*1 = (sent w).*1 ++ map req_fd rs.
Proof.
  revert w. induction rs as [|r rs IH]; intros w.
  - cbn. by rewrite app_nil_r.
  - rewrite serve_cons, IH.
    destruct (handle_outcome r w) as (ret & text & d' & -> & _).
    unfold respond. cbn [snd sent map].
    by rewrite fmap_app, <- app_assoc.
Qed.

(** X7.  The return value: [handle_command] returns -1 exactly on a line
    that is empty or white space throughout, and 0 on every other line,
    also when the command is unknown or refused. *)
Theorem X7_return_value fd cmd command0 argument0 w :
  fst (handle_command fd cmd command0 argument0 w) =
  if decide (Forall (fun c => isspace c = true) (cstr cmd)) then -1 else 0.
Proof.
  destruct (handle_command_outcome fd cmd command0 argument0 w)
    as (ret & text & d' & -> & Ho).
  cbn [fst]. case_decide as E.
  - apply parsed_keyword_None in E. destruct Ho; congruence.
  - rewrite <- parsed_keyword_None in E. destruct Ho; congruence.
Qed.

(** X8.  Fields that no command can move: in every state that follows
    [device_init], [read_pos] and [write_pos] are 0, [access_level] is 0
    or 1, and both counters are within an unsigned long. *)
Theorem X8_reachable_fields (rs : list request) :
  let d := device (snd (serve rs initial_world)) in
  read_pos d = 0 /\ write_pos d = 0 /\
  (access_level d = 0 \/ access_level d = 1) /\
  0 <= read_count d < 2 ^ 64 /\ 0 <= write_count d < 2 ^ 64.
Proof.
  intros d.
  assert (device_reachable d) as (_ & H)
    by (apply serve_reachable, device_init_reachable).
  exact H.
Qed.

(** X9.  The buffer is always a C string of [buffer_size] bytes in an
    array of 1024: in every state that follows [device_init] the array
    keeps its size, and the [buffer_size] bytes of content hold no NUL
    (so that READ, which prints a C string, shows all of them). *)
Theorem X9_reachable_buffer (rs : list request) :
  let d := device (snd (serve rs initial_world)) in
  Z.of_nat (length (buffer d)) = DEVICE_BUFFER_SIZE /\
  content d = cstr (buffer d) /\
  nul_free (content d) /\
  Z.of_nat (length (content d)) = buffer_size d.
Proof.
  intros d.
  assert (device_ok d) as Hok by (apply serve_ok, device_init_ok).
  pose proof (device_ok_content d Hok) as Hc.
  destruct Hok as (Hlen & Hsz & Hle).
  repeat split; try done.
  - rewrite Hc. apply cstr_nul_free.
  - by rewrite Hc.
Qed.

(* ================================================================== *)
(** ** Properties of the parser *)
(* ================================================================== *)

Lemma take_while_app_all p s1 s2 :
  Forall (fun c => p c = true) s1 ->
  take_while p (s1 ++ s2) = s1 ++ take_while p s2.
Proof. induction 1 as [|c s Hc _ IH]; simpl; [done|]. rewrite Hc. by f_equal. Qed.

Lemma drop_while_app_all p s1 s2 :
  Forall (fun c => p c = true) s1 ->
  drop_while p (s1 ++ s2) = drop_while p s2.
Proof. induction 1 as [|c s Hc _ IH]; simpl; [done|]. by rewrite Hc. Qed.

Lemma take_while_stop_nil p s :
  match s with [] => True | c :: _ => p c = false end ->
  take_while p s = [].
Proof. destruct s as [|c s]; simpl; [done|]. by intros ->. Qed.

Lemma drop_while_stop p s :
  match s with [] => True | c :: _ => p c = false end ->
  drop_while p s = s.
Proof. destruct s as [|c s]; simpl; [done|]. by intros ->. Qed.

Lemma cstr_app s1 s2 : nul_free s1 -> cstr (s1 ++ s2) = s1 ++ cstr s2.
Proof. intros H. by apply take_while_app_all, nul_free_not_nul. Qed.

Lemma space_nul_free s : Forall (fun c => isspace c = true) s -> nul_free s.
Proof.
  intros H. eapply Forall_impl; [exact H|]. intros c Hc ->. discriminate.
Qed.

Lemma not_space_forall s :
  Forall (fun c => isspace c = false) s ->
  Forall (fun c => not_space c = true) s.
Proof.
  intros H. eapply Forall_impl; [exact H|]. intros c Hc.
  unfold not_space. by rewrite Hc.
Qed.

Lemma not_newline_forall s :
  Forall (fun c => c <> LF) s -> Forall (fun c => not_newline c = true) s.
Proof.
  intros H. eapply Forall_impl; [exact H|]. intros c Hc.
  unfold not_newline. destruct (Byte.eqb c LF) eqn:E; [|done].
  by apply Byte.byte_dec_bl in E.
Qed.

(** The keyword and the rest of the input behind it, for a line that
    starts (after white space) with the token [k] followed by something
    that is no part of a token. *)
Lemma scan_s_token lead k rest :
  Forall (fun c => isspace c = true) lead ->
  k <> [] -> (length k <= 63)%nat ->
  Forall (fun c => isspace c = false) k ->
  match rest with [] => True | c :: _ => isspace c = true end ->
  scan_s 63 (lead ++ k ++ rest) = Some (k, rest).
Proof.
  intros Hlead Hne Hlen Hk Hrest. unfold scan_s.
  rewrite drop_while_app_all by done.
  destruct k as [|c k]; [done|]. inversion Hk as [|? ? Hc Hk']; subst.
  cbn [app drop_while]. rewrite Hc.
  change (c :: k ++ rest) with ((c :: k) ++ rest).
  rewrite take_while_app_all by (by apply not_space_forall).
  rewrite take_while_stop_nil.
  2: { destruct rest; [done|]. unfold not_space. by rewrite Hrest. }
  rewrite app_nil_r, take_ge by done.
  by rewrite drop_app_length.
Qed.

(** X10.  The keyword that the parser extracts is never empty, never
    longer than 63 bytes, and holds neither white space nor a NUL. *)
Theorem X10_keyword_bounds cmd k :
  parsed_keyword cmd = Some k ->
  (1 <= length k <= 63)%nat /\
  Forall (fun c => isspace c = false) k /\
  nul_free k.
Proof.
  intros Hk. pose proof (parsed_keyword_nul_free _ _ Hk) as Hnf.
  revert Hk. unfold parsed_keyword, scan_s.
  destruct (drop_while isspace (cstr cmd)) as [|c s] eqn:E; [discriminate|].
  apply drop_while_head in E. cbn [fmap option_fmap option_map fst].
  assert (not_space c = true) as Hc by (unfold not_space; by rewrite E).
  intros [= <-]. cbn [take_while] in *. rewrite Hc in *.
  cbn [take length] in *. rewrite length_take. split; [lia|]. split; [|done].
  constructor; [done|]. apply Forall_take.
  eapply Forall_impl; [apply take_while_Forall|].
  intros x. unfold not_space. by destruct (isspace x).
Qed.

Lemma X10_keyword_bounds_witness :
  (1 <= length (lit "STATUS") <= 63)%nat /\
  Forall (fun c => isspace c = false) (lit "STATUS") /\
  nul_free (lit "STATUS").
Proof.
  apply (X10_keyword_bounds (lit "  STATUS now")).
  vm_compute. reflexivity.
Defined.

(** X11.  The argument that the parser extracts is never empty, never
    longer than 1023 bytes (so it always fits the device buffer with its
    NUL), starts with a byte that is no white space, and holds neither a
    newline nor a NUL. *)
Theorem X11_argument_bounds cmd arg :
  parsed_argument cmd = Some arg ->
  (1 <= length arg <= 1023)%nat /\
  (exists c t, arg = c :: t /\ isspace c = false) /\
  Forall (fun c => c <> LF) arg /\
  nul_free arg.
Proof.
  intros Ha. pose proof (parsed_argument_nul_free _ _ Ha) as Hnf.
  pose proof (parsed_argument_length _ _ Ha) as Hlen.
  split; [done|]. split; [|split; [|done]]; revert Ha;
    unfold parsed_argument, scan_not_newline;
    (destruct (scan_s 63 (cstr cmd)) as [[tok rest]|]; [|discriminate]);
    cbn [mbind option_bind];
    destruct (drop_while isspace rest) as [|c s] eqn:E;
    try discriminate.
  - apply drop_while_head in E. cbn [take_while].
    destruct (not_newline c); cbn [take]; [|discriminate].
    intros [= <-]. eauto.
  - set (a := take 1023 (take_while not_newline (c :: s))).
    assert (Forall (fun c => c <> LF) a) as Ha.
    { apply Forall_take. eapply Forall_impl; [apply take_while_Forall|].
      intros x Hx ->. discriminate. }
    destruct a; [discriminate|]. by intros [= <-].
Qed.

Lemma X11_argument_bounds_witness :
  (1 <= length (lit "a b ") <= 1023)%nat /\
  (exists c t, lit "a b " = c :: t /\ isspace c = false) /\
  Forall (fun c => c <> LF) (lit "a b ") /\
  nul_free (lit "a b ").
Proof.
  apply (X11_argument_bounds (lit "DATA   a b ")).
  vm_compute. reflexivity.
Defined.

(** The C string of a line that ends at the end of the array, at a NUL
    or goes on behind a newline. *)
Definition line_end (tail : list byte) : Prop :=
  tail = [] \/ exists tl, tail = NUL :: tl \/ tail = LF :: tl.

Lemma line_end_cstr tail :
  line_end tail ->
  match cstr tail with [] => True | c :: _ => c = LF end.
Proof.
  intros [->|[tl [->| ->]]]; [done | done |]. reflexivity.
Qed.

(** X12.  Parsing a line as a client writes it: white space, a keyword
    of at most 63 bytes, white space, and a text that runs to the end of
    the line.  The parser returns exactly the keyword, and as the
    argument the text cut to 1023 bytes: white space in front of the
    keyword and between keyword and text is dropped, white space inside
    and at the end of the text is kept, and what follows a newline is
    ignored. *)
Theorem X12_parse_line (lead k ws text tail : list byte) :
  Forall (fun c => isspace c = true) lead ->
  k <> [] -> (length k <= 63)%nat ->
  Forall (fun c => isspace c = false) k -> nul_free k ->
  ws <> [] -> Forall (fun c => isspace c = true) ws ->
  (exists c t, text = c :: t /\ isspace c = false) ->
  Forall (fun c => c <> LF) text -> nul_free text ->
  line_end tail ->
  let cmd := lead ++ k ++ ws ++ text ++ tail in
  parsed_keyword cmd = Some k /\
  argument_text cmd = text /\
  parsed_argument cmd = Some (take 1023 text).
Proof.
  intros Hlead Hk Hlen Hks Hknf Hws Hwss (c & t & -> & Hc) Htext Htnf Htail
    cmd.
  assert (cstr cmd = lead ++ k ++ (ws ++ (c :: t) ++ cstr tail)) as Hcstr.
  { subst cmd. rewrite cstr_app by (by apply space_nul_free).
    rewrite cstr_app by done.
    rewrite cstr_app by (by apply space_nul_free).
    by rewrite cstr_app by done. }
  assert (scan_s 63 (cstr cmd) = Some (k, ws ++ (c :: t) ++ cstr tail))
    as Hscan.
  { rewrite Hcstr. apply scan_s_token; try done.
    destruct ws as [|x ws']; [done|]. by inversion Hwss. }
  assert (take_while not_newline
            (drop_while isspace (ws ++ (c :: t) ++ cstr tail)) = c :: t)
    as Htw.
  { rewrite drop_while_app_all by done.
    rewrite drop_while_stop by (cbn; exact Hc).
    rewrite take_while_app_all by (by apply not_newline_forall).
    rewrite take_while_stop_nil; [by rewrite app_nil_r|].
    pose proof (line_end_cstr tail Htail) as Hle.
    destruct (cstr tail); [done|]. by subst. }
  assert (parsed_keyword cmd = Some k) as Hpk
    by (unfold parsed_keyword; by rewrite Hscan).
  assert (argument_text cmd = c :: t) as Hat
    by (unfold argument_text; by rewrite Hscan).
  repeat split; try done.
  by rewrite (parsed_argument_text _ _ Hpk), Hat.
Qed.

Lemma X12_parse_line_witness :
  let cmd := lit " " ++ lit "DATA" ++ lit "  " ++ lit "a b " ++
             (LF :: lit "READ") in
  parsed_keyword cmd = Some (lit "DATA") /\
  argument_text cmd = lit "a b " /\
  parsed_argument cmd = Some (take 1023 (lit "a b ")).
Proof.
  apply (X12_parse_line (lit " ") (lit "DATA") (lit "  ") (lit "a b ")
           (LF :: lit "READ")).
  - vm_compute. repeat constructor.
  - vm_compute. discriminate.
  - vm_compute. lia.
  - vm_compute. repeat constructor.
  - vm_compute. repeat constructor; discriminate.
  - vm_compute. discriminate.
  - vm_compute. repeat constructor.
  - vm_compute. eexists _, _. split; reflexivity.
  - vm_compute. repeat constructor; discriminate.
  - vm_compute. repeat constructor; discriminate.
  - right. eexists. right. reflexivity.
Defined.

(** X13.  A line that holds a keyword only (with white space around it,
    up to the end of the string): the parser returns the keyword and no
    argument, and leaves the array [argument] as it found it. *)
Theorem X13_parse_keyword_only (lead k ws tail command0 argument0 : list byte) :
  Forall (fun c => isspace c = true) lead ->
  k <> [] -> (length k <= 63)%nat ->
  Forall (fun c => isspace c = false) k -> nul_free k ->
  Forall (fun c => isspace c = true) ws ->
  (tail = [] \/ exists tl, tail = NUL :: tl) ->
  let cmd := lead ++ k ++ ws ++ tail in
  parsed_keyword cmd = Some k /\
  parsed_argument cmd = None /\
  sscanf_command cmd command0 argument0 = (1, strcpy command0 k, argument0).
Proof.
  intros Hlead Hk Hlen Hks Hknf Hwss Htail cmd.
  assert (cstr tail = []) as Hct by (by destruct Htail as [->|[tl ->]]).
  assert (cstr cmd = lead ++ k ++ ws) as Hcstr.
  { subst cmd. rewrite cstr_app by (by apply space_nul_free).
    rewrite cstr_app by done.
    rewrite cstr_app by (by apply space_nul_free).
    by rewrite Hct, app_nil_r. }
  assert (scan_s 63 (cstr cmd) = Some (k, ws)) as Hscan.
  { rewrite Hcstr. apply scan_s_token; try done.
    destruct ws as [|x ws']; [done|]. by inversion Hwss. }
  unfold parsed_keyword, parsed_argument, sscanf_command.
  rewrite Hscan. cbn [fmap option_fmap option_map fst mbind option_bind].
  rewrite drop_while_all by done. done.
Qed.

Lemma X13_parse_keyword_only_witness :
  let cmd := lit " " ++ lit "DATA" ++ lit "  " ++ [] in
  parsed_keyword cmd = Some (lit "DATA") /\
  parsed_argument cmd = None /\
  sscanf_command cmd [] (lit "old") =
    (1, strcpy [] (lit "DATA"), lit "old").
Proof.
  apply (X13_parse_keyword_only (lit " ") (lit "DATA") (lit "  ") []).
  - vm_compute. repeat constructor.
  - vm_compute. discriminate.
  - vm_compute. lia.
  - vm_compute. repeat constructor.
  - vm_compute. repeat constructor; discriminate.
  - vm_compute. repeat constructor.
  - by left.
Defined.

(** X14.  A token of more than 63 bytes is split: the first 63 bytes
    become the keyword and the bytes behind them, although no white
    space separates them, become the argument (cut to 1023 bytes). *)
Theorem X14_long_token_spills (tok : list byte) :
  (63 < length tok)%nat ->
  Forall (fun c => isspace c = false) tok ->
  nul_free tok ->
  parsed_keyword tok = Some (take 63 tok) /\
  parsed_argument tok = Some (take 1023 (drop 63 tok)).
Proof.
  intros Hlen Hns Hnf.
  assert (Forall (fun c => c <> LF) tok) as Hnl.
  { eapply Forall_impl; [exact Hns|]. intros c Hc ->. discriminate. }
  assert (scan_s 63 (cstr tok) = Some (take 63 tok, drop 63 tok)) as Hscan.
  { rewrite cstr_of_nul_free by done. unfold scan_s.
    destruct tok as [|c t]; [cbn in Hlen; lia|].
    inversion Hns as [|? ? Hc Ht]; subst.
    cbn [drop_while]. rewrite Hc.
    rewrite take_while_all by (by apply not_space_forall).
    rewrite length_take, Nat.min_l by lia. done. }
  assert (exists c t, drop 63 tok = c :: t /\ isspace c = false)
    as (c & t & Hd & Hc).
  { destruct (drop 63 tok) as [|c t] eqn:E.
    - apply (f_equal length) in E. rewrite length_drop in E. cbn in E. lia.
    - exists c, t. split; [done|].
      assert (Forall (fun c => isspace c = false) (c :: t)) as Hf
        by (rewrite <- E; by apply Forall_drop).
      by inversion Hf. }
  split.
  - unfold parsed_keyword. by rewrite Hscan.
  - unfold parsed_argument, scan_not_newline. rewrite Hscan.
    cbn [mbind option_bind].
    rewrite drop_while_stop by (rewrite Hd; exact Hc).
    rewrite take_while_all
      by (apply not_newline_forall; by apply Forall_drop).
    rewrite Hd. done.
Qed.

Lemma X14_long_token_spills_witness :
  let tok := replicate 63 "A"%byte ++ lit "READ" in
  parsed_keyword tok = Some (take 63 tok) /\
  parsed_argument tok = Some (take 1023 (drop 63 tok)).
Proof.
  apply (X14_long_token_spills (replicate 63 "A"%byte ++ lit "READ")).
  - vm_compute. lia.
  - vm_compute. repeat constructor.
  - vm_compute. repeat constructor; discriminate.
Defined.

(* ================================================================== *)
(** ** Properties of the line end handling in client_thread *)
(* ================================================================== *)

(** Where the command string of a received message ends: at a carriage
    return before the last byte, else at a final newline, else at the
    end of the message. *)
Definition cut_point (msg : list byte) : nat :=
  let n := length msg in
  if decide (msg !! (n - 2)%nat = Some CR) then (n - 2)%nat
  else if decide (msg !! (n - 1)%nat = Some LF) then (n - 1)%nat
  else n.

Lemma received_command_cut buf0 msg :
  (2 <= length msg < length buf0)%nat ->
  exists buf,
    received_command buf0 msg = Some buf /\
    length buf = length buf0 /\
    buf !! cut_point msg = Some NUL /\
    take (cut_point msg) buf = take (cut_point msg) msg.
Proof.
  intros Hn. pose proof (received_command_eq buf0 msg Hn) as Heq.
  cbv zeta in Heq. unfold cut_point. set (n := length msg) in *.
  set (b0 := recv_into buf0 msg) in *.
  assert (length b0 = length buf0) as Hlen0.
  { subst b0. rewrite recv_into_eq, length_app, length_drop. lia. }
  assert (forall i : nat, (i < n)%nat -> b0 !! i = msg !! i) as Hb0.
  { intros i Hi. subst b0. rewrite recv_into_eq. apply lookup_app_l. lia. }
  assert (forall (k : nat) (b : list byte), (k <= n)%nat ->
            length b = length buf0 ->
            (forall i : nat, (i < k)%nat -> b !! i = msg !! i) ->
            take k b = take k msg) as Htake.
  { intros k b Hk Hl Hb. apply list_eq. intros i.
    destruct (decide (i < k)%nat).
    - rewrite !lookup_take_lt by lia. apply Hb. lia.
    - by rewrite !lookup_take_ge by lia. }
  eexists. split; [exact Heq|].
  destruct (decide (msg !! (n - 1)%nat = Some LF)) as [Hlf|Hlf].
  - (* the final newline is removed first *)
    assert (<[(n - 1)%nat:=NUL]> (<[n:=NUL]> b0) !! (n - 2)%nat
            = msg !! (n - 2)%nat) as Hl2.
    { rewrite !list_lookup_insert_ne by lia. apply Hb0. lia. }
    rewrite Hl2.
    destruct (decide (msg !! (n - 2)%nat = Some CR)) as [Hcr|Hcr].
    + rewrite !length_insert. split; [done|]. split.
      * apply list_lookup_insert_eq. rewrite !length_insert. lia.
      * apply Htake; [lia | by rewrite !length_insert |].
        intros i Hi. rewrite !list_lookup_insert_ne by lia. apply Hb0. lia.
    + rewrite !length_insert. split; [done|]. split.
      * apply list_lookup_insert_eq. rewrite !length_insert. lia.
      * apply Htake; [lia | by rewrite !length_insert |].
        intros i Hi. rewrite !list_lookup_insert_ne by lia. apply Hb0. lia.
  - assert (<[n:=NUL]> b0 !! (n - 2)%nat = msg !! (n - 2)%nat) as Hl2.
    { rewrite !list_lookup_insert_ne by lia. apply Hb0. lia. }
    rewrite Hl2.
    destruct (decide (msg !! (n - 2)%nat = Some CR)) as [Hcr|Hcr].
    + rewrite !length_insert. split; [done|]. split.
      * apply list_lookup_insert_eq. rewrite !length_insert. lia.
      * apply Htake; [lia | by rewrite !length_insert |].
        intros i Hi. rewrite !list_lookup_insert_ne by lia. apply Hb0. lia.
    + rewrite !length_insert. split; [done|]. split.
      * apply list_lookup_insert_eq. lia.
      * apply Htake; [lia | by rewrite !length_insert |].
        intros i Hi. rewrite !list_lookup_insert_ne by lia. apply Hb0. lia.
Qed.

(** X15.  What the parser gets from a received message of two bytes or
    more: the message up to its first NUL, cut at a carriage return in
    the place before the last, else at a final newline, else not cut. *)
Theorem X15_command_string (buf0 msg : list byte) :
  Z.of_nat (length buf0) = 1024 ->
  (2 <= length msg <= 1023)%nat ->
  exists buf,
    received_command buf0 msg = Some buf /\
    cstr buf = cstr (take (cut_point msg) msg).
Proof.
  intros Hb Hn.
  destruct (received_command_cut buf0 msg) as (buf & H1 & _ & H2 & H3);
    [lia|].
  exists buf. split; [exact H1|].
  by rewrite (cstr_cut _ _ H2), H3.
Qed.

Lemma X15_command_string_witness :
  exists buf,
    received_command (replicate 1024 "a"%byte) (lit "READ" ++ [LF])
      = Some buf /\
    cstr buf = cstr (take (cut_point (lit "READ" ++ [LF]))
                       (lit "READ" ++ [LF])).
Proof.
  apply (X15_command_string (replicate 1024 "a"%byte) (lit "READ" ++ [LF])).
  - vm_compute. reflexivity.
  - vm_compute. lia.
Defined.




(* ================================================================== *)
(** ** client_thread: the whole session *)
(* ================================================================== *)

(** What one call of [recv] gave: [n > 0] bytes, [n == 0] (the peer
    closed), or [n < 0] with an [errno].  With a message come the bytes
    that the local arrays of the [handle_command] call for it hold on
    entry. *)
Inductive recv_result :=
| Received (msg command0 argument0 : list byte)
| PeerClosed
| RecvFailed (errno : Z).

(** [EINTR] as errno.h of Linux has it. *)
Definition EINTR : Z := 4.

Definition GREETING : list byte :=
  lit "Подключение к менеджеру ресурсов установлено. Используйте HELP для справки.".

(** How [client_thread] stands after the given results of [recv]. *)
Inductive thread_end :=
| Returned       (* left the loop, closed fd and returned *)
| Waiting        (* blocked in the next recv *)
| OutOfBounds.   (* accessed buf outside the array: not followed further *)

(** The loop [for (;;)] of [client_thread]; [buf] is the local array,
    which keeps its bytes from one round to the next.  [recv] is asked
    for at most [sizeof(buf) - 1] bytes, so a message has 1 to 1023 of
    them.  The diagnostics that [optv] turns on go to stdout and are
    left out. *)
Fixpoint client_loop (fd : Z) (buf : list byte) (results : list recv_result)
  : M thread_end :=
  match results with
  | [] => ret Waiting
  | PeerClosed :: _ => ret Returned
  | RecvFailed errno :: rest =>
      if errno =? EINTR then client_loop fd buf rest else ret Returned
  | Received msg command0 argument0 :: rest =>
      match strip_line_end (recv_into buf msg) (Z.of_nat (length msg)) with
      | None => ret OutOfBounds
      | Some buf' =>
          handle_command fd buf' command0 argument0 ;;
          client_loop fd buf' rest
      end
  end.

(** [client_thread]: the greeting, then the loop. *)
Definition client_thread (fd : Z) (buf0 : list byte)
    (results : list recv_result) : M thread_end :=
  send_response fd GREETING ;;
  client_loop fd buf0 results.

(** The result ends the loop. *)
Definition terminal (r : recv_result) : Prop :=
  match r with
  | PeerClosed => True
  | RecvFailed errno => errno <> EINTR
  | Received _ _ _ => False
  end.

(** The result is a [recv] that a signal interrupted. *)
Definition interrupted (r : recv_result) : Prop :=
  r = RecvFailed EINTR.

#[global] Instance recv_result_eq_dec : EqDecision recv_result.
Proof. solve_decision. Defined.

#[global] Instance interrupted_dec r : Decision (interrupted r).
Proof. unfold interrupted. apply _. Defined.

Lemma cstr_GREETING : cstr GREETING = GREETING.
Proof. vm_compute. reflexivity. Qed.

Lemma client_loop_sent fd buf results w :
  exists texts,
    sent (snd (client_loop fd buf results w)) =
      sent w ++ map (pair fd) texts /\
    (length texts <= length results)%nat.
Proof.
  revert buf w. induction results as [|r rs IH]; intros buf w.
  - exists []. cbn. by rewrite app_nil_r.
  - destruct r as [msg c0 a0| |errno]; cbn [client_loop].
    + destruct (strip_line_end _ _) as [buf'|].
      * unfold bind.
        destruct (handle_command_outcome fd buf' c0 a0 w)
          as (ret0 & text & d' & -> & _).
        destruct (IH buf' (respond fd text d' w)) as (texts & -> & Hl).
        exists (cstr text :: texts). unfold respond. cbn [sent map length].
        rewrite <- app_assoc. split; [done | lia].
      * exists []. cbn. rewrite app_nil_r. split; [done | lia].
    + exists []. cbn. rewrite app_nil_r. split; [done | lia].
    + destruct (errno =? EINTR).
      * destruct (IH buf w) as (texts & -> & Hl).
        exists texts. cbn [length]. split; [done | lia].
      * exists []. cbn. rewrite app_nil_r. split; [done | lia].
Qed.

(** X18.  A session talks to its own client only, and the greeting comes
    first: whatever [recv] gives, everything that [client_thread] sends
    goes to its descriptor, starts with the greeting, and holds at most
    one response for each result of [recv]. *)
Theorem X18_session_responses fd buf0 results w :
  exists texts,
    sent (snd (client_thread fd buf0 results w)) =
      sent w ++ (fd, GREETING) :: map (pair fd) texts /\
    (length texts <= length results)%nat.
Proof.
  unfold client_thread, bind, send_response. cbn [fst snd].
  destruct (client_loop_sent fd buf0 results
              (mk_world (device w) (sent w ++ [(fd, cstr GREETING)])))
    as (texts & H & Hl).
  exists texts. split; [|exact Hl].
  rewrite H. cbn [sent]. by rewrite cstr_GREETING, <- app_assoc.
Qed.

(** X19.  The end of a session: once [recv] has reported that the peer
    closed, or has failed with an error other than EINTR, nothing that
    might still arrive is handled. *)
Theorem X19_session_ends fd buf0 before r after w :
  terminal r ->
  client_thread fd buf0 (before ++ r :: after) w =
  client_thread fd buf0 (before ++ [r]) w.
Proof.
  intros Hr. unfold client_thread, bind, send_response. cbn [fst snd].
  generalize (mk_world (device w) (sent w ++ [(fd, cstr GREETING)])).
  clear w. revert buf0.
  induction before as [|b before IH]; intros buf w.
  - cbn [app client_loop]. destruct r as [msg c0 a0| |errno]; [done|done|].
    cbn in Hr. by destruct (Z.eqb_spec errno EINTR).
  - rewrite <- !app_comm_cons. destruct b as [msg c0 a0| |errno];
      cbn [client_loop]; [|done|].
    + destruct (strip_line_end _ _) as [buf'|]; [|done].
      unfold bind. destruct (handle_command fd buf' c0 a0 w). apply IH.
    + destruct (errno =? EINTR); [apply IH | done].
Qed.

Lemma X19_session_ends_witness :
  client_thread 3 (replicate 1024 NUL)
    ([Received (lit "READ") [] []] ++ PeerClosed
       :: [Received (lit "CLEAR") [] []]) initial_world =
  client_thread 3 (replicate 1024 NUL)
    ([Received (lit "READ") [] []] ++ [PeerClosed]) initial_world.
Proof.
  apply (X19_session_ends 3 (replicate 1024 NUL)
           [Received (lit "READ") [] []] PeerClosed
           [Received (lit "CLEAR") [] []] initial_world).
  exact I.
Defined.

(** X20.  An interrupted [recv] is retried and leaves no trace: a
    session with the EINTR failures taken out of what [recv] gives does
    and sends exactly the same. *)
Theorem X20_interrupt_is_retried fd buf0 results w :
  client_thread fd buf0 results w =
  client_thread fd buf0 (filter (fun r => ~ interrupted r) results) w.
Proof.
  unfold client_thread, bind, send_response. cbn [fst snd].
  generalize (mk_world (device w) (sent w ++ [(fd, cstr GREETING)])).
  clear w. revert buf0.
  induction results as [|r rs IH]; intros buf w; [done|].
  rewrite filter_cons. destruct r as [msg c0 a0| |errno].
  - rewrite decide_True by (unfold interrupted; discriminate).
    cbn [client_loop]. destruct (strip_line_end _ _) as [buf'|]; [|done].
    unfold bind. destruct (handle_command fd buf' c0 a0 w). apply IH.
  - rewrite decide_True by (unfold interrupted; discriminate). done.
  - cbn [client_loop]. destruct (Z.eqb_spec errno EINTR) as [->|Hne].
    + rewrite decide_False by (unfold interrupted; tauto). apply IH.
    + rewrite decide_True by (unfold interrupted; congruence).
      cbn [client_loop]. by destruct (Z.eqb_spec errno EINTR).
Qed.

(** A session of well-formed messages, as long as every [send] returns:
    when every result of [recv] is a message of 2 to 1023 bytes, the
    loop handles all of them, with one call of [send_response] for each
    after the greeting, and then waits in [recv]. *)
Lemma client_thread_messages fd buf0 results w :
  Z.of_nat (length buf0) = 1024 ->
  Forall (fun r => exists msg c0 a0,
            r = Received msg c0 a0 /\ (2 <= length msg <= 1023)%nat)
         results ->
  fst (client_thread fd buf0 results w) = Waiting /\
  length (sent (snd (client_thread fd buf0 results w))) =
    (length (sent w) + 1 + length results)%nat.
Proof.
  intros Hb Hall. unfold client_thread, bind, send_response. cbn [fst snd].
  assert (forall buf w',
            length buf = length buf0 ->
            fst (client_loop fd buf results w') = Waiting /\
            length (sent (snd (client_loop fd buf results w'))) =
              (length (sent w') + length results)%nat) as Hgen.
  { induction Hall as [|r rs (msg & c0 & a0 & -> & Hm) _ IH];
      intros buf w' Hbuf.
    - cbn. split; [done | lia].
    - cbn [client_loop].
      destruct (received_command_cut buf msg) as (buf' & Hrc & Hl & _);
        [lia|].
      unfold received_command in Hrc. rewrite Hrc. unfold bind.
      destruct (handle_command_outcome fd buf' c0 a0 w')
        as (ret0 & text & d' & -> & _).
      destruct (IH buf' (respond fd text d' w')) as [H1 H2]; [lia|].
      split; [exact H1|]. rewrite H2. unfold respond. cbn [sent length].
      rewrite length_app. cbn [length]. lia. }
  destruct (Hgen buf0 (mk_world (device w) (sent w ++ [(fd, cstr GREETING)]))
              eq_refl) as [H1 H2].
  destruct (client_loop fd buf0 results _) as [e w'']. cbn [fst snd] in *.
  split; [exact H1|]. rewrite H2. cbn [sent]. rewrite length_app.
  cbn [length]. lia.
Qed.


(** X22.  SET_ACCESS itself is never refused, and read-write takes
    effect at once: whatever the mode was, after a SET_ACCESS read-write
    the next DATA with an argument is accepted and stored. *)
Theorem X22_read_write_restores fd1 cmd1 c1 a1 fd2 cmd2 c2 a2 w arg :
  device_ok (device w) ->
  parsed_keyword cmd1 = Some (lit "SET_ACCESS") ->
  parsed_argument cmd1 = Some (lit "read-write") ->
  parsed_keyword cmd2 = Some (lit "DATA") ->
  parsed_argument cmd2 = Some arg ->
  let w1 := snd (handle_command fd1 cmd1 c1 a1 w) in
  let w2 := snd (handle_command fd2 cmd2 c2 a2 w1) in
  sent w2 = sent w ++
    [(fd1, lit "ACCESS_SET: read-write");
     (fd2, lit "WRITTEN: " ++ fmt_u (Z.of_nat (length arg)) ++ lit " bytes")]
  /\ content (device w2) = arg
  /\ access_level (device w2) = 1.
Proof.
  intros Hok Hk1 Ha1 Hk2 Ha2 w1 w2. subst w1 w2.
  assert (argument_seen cmd1 a1 = lit "read-write") as Hseen
    by (unfold argument_seen; by rewrite Ha1).
  rewrite (handle_command_SET_ACCESS_read_write _ _ _ _ _ Hk1 Hseen).
  unfold respond. cbn [snd].
  set (w1 := mk_world _ _).
  assert (device_ok (device w1)) as Hok1 by exact Hok.
  assert (access_level (device w1) <> 0) as Hrw by (cbn; lia).
  destruct (handle_command_DATA_argument fd2 cmd2 c2 a2 w1 arg
              Hok1 Hrw Hk2 Ha2) as (-> & Hc & _ & _).
  cbn [snd device sent]. split; [|split; [exact Hc | done]].
  subst w1. cbn [sent]. by rewrite <- app_assoc.
Qed.

Lemma X22_read_write_restores_witness :
  let w := with_access 0 initial_world in
  let w1 := snd (handle_command 3 (lit "SET_ACCESS read-write") [] [] w) in
  let w2 := snd (handle_command 4 (lit "DATA hi") [] [] w1) in
  sent w2 = sent w ++
    [(3, lit "ACCESS_SET: read-write");
     (4, lit "WRITTEN: " ++ fmt_u (Z.of_nat (length (lit "hi"))) ++
         lit " bytes")]
  /\ content (device w2) = lit "hi"
  /\ access_level (device w2) = 1.
Proof.
  apply (X22_read_write_restores 3 (lit "SET_ACCESS read-write") [] []
           4 (lit "DATA hi") [] [] (with_access 0 initial_world) (lit "hi")).
  - exact device_init_ok.
  - vm_compute. reflexivity.
  - vm_compute. reflexivity.
  - vm_compute. reflexivity.
  - vm_compute. reflexivity.
Defined.

(* ================================================================== *)
(** ** The request tool (client.c) *)
(* ================================================================== *)

Module Client.

Definition EXIT_SUCCESS : Z := 0.
Definition EXIT_FAILURE : Z := 1.

(** What one [recv] of the tool gave: [n > 0] bytes, [n == 0], [n < 0]. *)
Inductive received :=
| Bytes (bytes : list byte)
| Closed
| Failed.

(** What the system calls of one run return. *)
Record env := mk_env {
  socket_ret : Z;          (* socket(): the descriptor, or -1 *)
  connect_ret : Z;         (* connect(): 0, or -1 *)
  greeting : received;     (* the first recv *)
  send_ret : Z;            (* send(): the bytes sent, or -1 *)
  response : received      (* the second recv *)
}.

(** What the tool does that can be seen from outside, in order. *)
Inductive event :=
| Stdout (text : list byte)
| Stderr (text : list byte)
| Perror (tag : list byte)
| Send (fd : Z) (bytes : list byte)
| Close (fd : Z).

(** The usage text, with [argv[0]] in it. *)
Definition usage (prog : list byte) : list event :=
  [Stderr (lit "Использование: " ++ cstr prog ++
           lit " <команда> [аргументы]" ++ [LF]);
   Stderr (lit "Примеры:" ++ [LF]);
   Stderr (lit "  " ++ cstr prog ++ lit " " ++ [x22] ++ lit "HELP" ++
           [x22] ++ [LF]);
   Stderr (lit "  " ++ cstr prog ++ lit " " ++ [x22] ++ lit "READ" ++
           [x22] ++ [LF]);
   Stderr (lit "  " ++ cstr prog ++ lit " " ++ [x22] ++
           lit "DATA Привет мир!" ++ [x22] ++ [LF]);
   Stderr (lit "  " ++ cstr prog ++ lit " " ++ [x22] ++ lit "STATUS" ++
           [x22] ++ [LF]);
   Stderr (lit "  " ++ cstr prog ++ lit " " ++ [x22] ++ lit "CLEAR" ++
           [x22] ++ [LF])].

(** [main] of the tool, for [argv = prog :: args]: the exit status and
    the events of the run, an event being a call that shows outside
    ([Send] is the call of [send], whatever it returns).  After a [recv]
    of [n > 0] bytes the tool puts a NUL behind them and prints the
    array as a C string. *)
Definition main (prog : list byte) (args : list (list byte)) (e : env)
  : Z * list event :=
  match args with
  | [] => (EXIT_FAILURE, usage prog)
  | cmd :: _ =>
      let fd := socket_ret e in
      if fd =? -1 then (EXIT_FAILURE, [Perror (lit "socket")])
      else if connect_ret e =? -1
      then (EXIT_FAILURE, [Perror (lit "connect"); Close fd])
      else
        let greeted :=
          match greeting e with
          | Bytes b => [Stdout (lit "Сервер: " ++ cstr (b ++ [NUL]) ++ [LF])]
          | _ => []
          end in
        if send_ret e =? -1
        then (EXIT_FAILURE,
              greeted ++ [Send fd (cstr cmd); Perror (lit "send"); Close fd])
        else
          let answered :=
            match response e with
            | Bytes b => Stdout (lit "Ответ: " ++ cstr (b ++ [NUL]) ++ [LF])
            | Closed => Stdout (lit "Сервер закрыл соединение" ++ [LF])
            | Failed => Perror (lit "recv")
            end in
          (EXIT_SUCCESS,
           greeted ++ [Send fd (cstr cmd); answered; Close fd])
  end.

Definition is_send (ev : event) : Prop :=
  match ev with Send _ _ => True | _ => False end.
Definition is_close (ev : event) : Prop :=
  match ev with Close _ => True | _ => False end.

#[global] Instance is_send_dec ev : Decision (is_send ev).
Proof. destruct ev; cbn; apply _. Defined.
#[global] Instance is_close_dec ev : Decision (is_close ev).
Proof. destruct ev; cbn; apply _. Defined.

End Client.

Lemma client_greeted_filter (g : Client.received) fd :
  let greeted :=
    match g with
    | Client.Bytes b =>
        [Client.Stdout (lit "Сервер: " ++ cstr (b ++ [NUL]) ++ [LF])]
    | _ => []
    end in
  filter Client.is_send greeted = [] /\
  filter Client.is_close greeted = [] /\
  Client.Close fd ∉ greeted.
Proof.
  destruct g; cbn; repeat split; try done; try apply not_elem_of_nil.
  rewrite not_elem_of_cons. split; [discriminate | apply not_elem_of_nil].
Qed.

(** X24.  With a command, once the socket is open and connected and
    [send] has not returned -1, the tool exits with EXIT_SUCCESS
    whatever the two [recv] give, also when the response could not be
    read.  It has sent the first argument as a C string, once, without
    a line end; further arguments are ignored. *)
Theorem X24_client_success prog cmd more (e : Client.env) :
  Client.socket_ret e <> -1 ->
  Client.connect_ret e <> -1 ->
  Client.send_ret e <> -1 ->
  let '(status, events) := Client.main prog (cmd :: more) e in
  status = Client.EXIT_SUCCESS /\
  filter Client.is_send events = [Client.Send (Client.socket_ret e) (cstr cmd)].
Proof.
  intros Hs Hc Hn. unfold Client.main.
  destruct (Z.eqb_spec (Client.socket_ret e) (-1)); [done|].
  destruct (Z.eqb_spec (Client.connect_ret e) (-1)); [done|].
  destruct (Z.eqb_spec (Client.send_ret e) (-1)); [done|].
  split; [done|].
  rewrite filter_app.
  destruct (client_greeted_filter (Client.greeting e) 0) as (-> & _ & _).
  by destruct (Client.response e).
Qed.

Lemma X24_client_success_witness :
  let e := Client.mk_env 3 0 (Client.Bytes (lit "hi")) 4 Client.Failed in
  let '(status, events) := Client.main (lit "client") [lit "READ"] e in
  status = Client.EXIT_SUCCESS /\
  filter Client.is_send events =
    [Client.Send (Client.socket_ret e) (cstr (lit "READ"))].
Proof.
  apply (X24_client_success (lit "client") (lit "READ") []
           (Client.mk_env 3 0 (Client.Bytes (lit "hi")) 4 Client.Failed)).
  - vm_compute. discriminate.
  - vm_compute. discriminate.
  - vm_compute. discriminate.
Defined.


(** X26.  What a call can change besides the counters: only SET_ACCESS
    changes [access_level], and only a DATA or CLEAR that is not refused
    changes the buffer or [buffer_size].  READ, STATUS, HELP, unknown
    keywords, malformed lines and refused commands leave all three as
    they are. *)
Theorem X26_buffer_and_mode_frame fd cmd command0 argument0 w :
  let d := device w in
  let d' := device (snd (handle_command fd cmd command0 argument0 w)) in
  (parsed_keyword cmd <> Some (lit "SET_ACCESS") ->
     access_level d' = access_level d) /\
  (~ ((parsed_keyword cmd = Some (lit "DATA") \/
       parsed_keyword cmd = Some (lit "CLEAR")) /\ access_level d <> 0) ->
     buffer d' = buffer d /\ buffer_size d' = buffer_size d).
Proof.
  intros d d'. subst d d'.
  destruct (handle_command_outcome fd cmd command0 argument0 w)
    as (ret & text & d' & -> & Ho).
  cbn [snd respond device].
  destruct Ho; split; intros Hn; cbn; try done.
  all: exfalso; apply Hn; auto.
Qed.

Lemma X26_buffer_and_mode_frame_witness :
  let d := device initial_world in
  let d' := device (snd (handle_command 3 (lit "HELP") [] []
                           initial_world)) in
  access_level d' = access_level d /\
  buffer d' = buffer d /\ buffer_size d' = buffer_size d.
Proof.
  destruct (X26_buffer_and_mode_frame 3 (lit "HELP") [] [] initial_world)
    as [H1 H2].
  split.
  - apply H1. vm_compute. discriminate.
  - apply H2. intros [[H|H] _]; vm_compute in H; discriminate.
Defined.

(* ================================================================== *)
(** ** The process around the dispatcher: send and SIGPIPE *)
(* ================================================================== *)

Definition SIGINT : Z := 2.
Definition SIGPIPE : Z := 13.
Definition SIGTERM : Z := 15.

(** The handlers of resmgr.c. *)
Inductive handler := on_signal.

(** What a signal does when it arrives: its default action, or a call
    of a handler. *)
Inductive disposition :=
| SigDefault
| SigHandler (h : handler).

(** [install_signals]: the disposition of each signal after the call.
    The three [sigaction] calls install [on_signal] for SIGINT, SIGTERM
    and SIGPIPE (the comment beside the third call says that SIGPIPE is
    to be ignored; the call installs the handler). *)
Definition install_signals (signo : Z) : disposition :=
  if (signo =? SIGINT) || (signo =? SIGTERM) || (signo =? SIGPIPE)
  then SigHandler on_signal
  else SigDefault.

(** [on_signal]: closes the listening socket, unlinks its path, prints
    a line to stderr and calls [_exit(0)]: the exit status. *)
Definition on_signal_exit (signo : Z) : Z := 0.

(** What [send(client_fd, response, len, 0)] does: it returns (the count
    of bytes it took, or -1), or the peer has closed the connection and,
    the flags being 0, the kernel raises SIGPIPE in the caller. *)
Inductive send_result :=
| SendReturns (n : Z)
| SendPeerClosed.

(** How a piece of the server ends: it goes on in a new state, the
    process has called [_exit], or a signal has killed it. *)
Inductive fate (A : Type) : Type :=
| Goes (a : A) (w : world)
| Exits (status : Z)
| Dies (signo : Z).
Arguments Goes {A} a w.
Arguments Exits {A} status.
Arguments Dies {A} signo.

Definition P (A : Type) : Type := world -> fate A.

Definition retp {A} (a : A) : P A := fun w => Goes a w.
Definition bindp {A B} (m : P A) (k : A -> P B) : P B :=
  fun w =>
    match m w with
    | Goes a w' => k a w'
    | Exits status => Exits status
    | Dies signo => Dies signo
    end.

(** A step that stays inside the process. *)
Definition inside {A} (m : M A) : P A :=
  fun w => let '(a, w') := m w in Goes a w'.

Notation "x <-- m ;;; k" := (bindp m (fun x => k))
  (at level 100, m at next level, right associativity).
Notation "m ;;; k" := (bindp m (fun _ => k))
  (at level 100, right associativity).

(** SIGPIPE arrives in the server, after [install_signals]. *)
Definition raise_SIGPIPE {A} : fate A :=
  match install_signals SIGPIPE with
  | SigHandler on_signal => Exits (on_signal_exit SIGPIPE)
  | SigDefault => Dies SIGPIPE
  end.

(** [send_response] in the process.  [sends k] is what the [send] call
    number [k] of the process does (the calls made so far are the
    entries of [sent]).  When [send] returns, whatever it returns, the
    function logs at most an error and returns. *)
Definition send_response_sys (sends : nat -> send_result)
    (client_fd : Z) (response : list byte) : P unit :=
  fun w =>
    match sends (length (sent w)) with
    | SendReturns n =>
        Goes tt (mk_world (device w) (sent w ++ [(client_fd, cstr response)]))
    | SendPeerClosed => raise_SIGPIPE
    end.

(** [handle_command] in the process: the same function, with the [send]
    of its response done by the system. *)
Definition handle_command_sys (sends : nat -> send_result) (client_fd : Z)
    (cmd : list byte) (command0 argument0 : list byte) : P Z :=
  let '(n, command, argument) := sscanf_command cmd command0 argument0 in
  if n <? 1 then
    send_response_sys sends client_fd MSG_BAD_FORMAT ;;;
    retp (-1)
  else
    (if strcmp command (lit "READ") =? 0 then
       inside (update_device
                 (fun d => set_read_count (incr (read_count d)) d)) ;;;
       d <-- inside get_device ;;;
       if buffer_size d =? 0 then
         send_response_sys sends client_fd (lit "BUFFER_EMPTY")
       else
         send_response_sys sends client_fd
           (snprintf (Z.to_nat (DEVICE_BUFFER_SIZE + 64))
              (lit "DATA: " ++ fmt_prec_s (to_int (buffer_size d)) (buffer d)))
     else if strcmp command (lit "DATA") =? 0 then
       d <-- inside get_device ;;;
       if access_level d =? 0 then
         send_response_sys sends client_fd MSG_READ_ONLY
       else
         let len := strlen argument in
         let len := if len >=? DEVICE_BUFFER_SIZE
                    then DEVICE_BUFFER_SIZE - 1 else len in
         inside (update_device (fun d =>
           set_buffer (memcpy (buffer d) argument (Z.to_nat len)) d)) ;;;
         inside (update_device (fun d =>
           set_buffer (<[Z.to_nat len := NUL]> (buffer d)) d)) ;;;
         inside (update_device (set_buffer_size len)) ;;;
         inside (update_device
                   (fun d => set_write_count (incr (write_count d)) d)) ;;;
         send_response_sys sends client_fd
           (snprintf 64 (lit "WRITTEN: " ++ fmt_u len ++ lit " bytes"))
     else if strcmp command (lit "CLEAR") =? 0 then
       d <-- inside get_device ;;;
       if access_level d =? 0 then
         send_response_sys sends client_fd MSG_READ_ONLY
       else
         inside (update_device
                   (fun d => set_buffer (<[0%nat := NUL]> (buffer d)) d)) ;;;
         inside (update_device (set_buffer_size 0)) ;;;
         inside (update_device (set_read_pos 0)) ;;;
         inside (update_device (set_write_pos 0)) ;;;
         send_response_sys sends client_fd (lit "BUFFER_CLEARED")
     else if strcmp command (lit "STATUS") =? 0 then
       d <-- inside get_device ;;;
       send_response_sys sends client_fd
         (snprintf 256
            (lit "STATUS: buffer_size=" ++ fmt_u (buffer_size d) ++
             lit ", reads=" ++ fmt_u (read_count d) ++
             lit ", writes=" ++ fmt_u (write_count d) ++
             lit ", access=" ++
             (if negb (access_level d =? 0) then lit "read-write"
              else lit "read-only")))
     else if strcmp command (lit "SET_ACCESS") =? 0 then
       if strcmp argument (lit "read-only") =? 0 then
         inside (update_device (set_access_level 0)) ;;;
         send_response_sys sends client_fd (lit "ACCESS_SET: read-only")
       else if strcmp argument (lit "read-write") =? 0 then
         inside (update_device (set_access_level 1)) ;;;
         send_response_sys sends client_fd (lit "ACCESS_SET: read-write")
       else
         send_response_sys sends client_fd MSG_BAD_ACCESS
     else if strcmp command (lit "HELP") =? 0 then
       send_response_sys sends client_fd MSG_HELP
     else
       send_response_sys sends client_fd MSG_UNKNOWN) ;;;
    retp 0.

(** The loop of [client_thread] in the process. *)
Fixpoint client_loop_sys (sends : nat -> send_result) (fd : Z)
    (buf : list byte) (results : list recv_result) : P thread_end :=
  match results with
  | [] => retp Waiting
  | PeerClosed :: _ => retp Returned
  | RecvFailed errno :: rest =>
      if errno =? EINTR then client_loop_sys sends fd buf rest
      else retp Returned
  | Received msg command0 argument0 :: rest =>
      match strip_line_end (recv_into buf msg) (Z.of_nat (length msg)) with
      | None => retp OutOfBounds
      | Some buf' =>
          handle_command_sys sends fd buf' command0 argument0 ;;;
          client_loop_sys sends fd buf' rest
      end
  end.

(** [client_thread] in the process. *)
Definition client_thread_sys (sends : nat -> send_result) (fd : Z)
    (buf0 : list byte) (results : list recv_result) : P thread_end :=
  send_response_sys sends fd GREETING ;;;
  client_loop_sys sends fd buf0 results.

(** Every [send] of the run returns. *)
Definition sends_return (sends : nat -> send_result) : Prop :=
  forall k, exists n, sends k = SendReturns n.

(* ------------------------------------------------------------------ *)
(** *** The process and the dispatcher by itself *)

Lemma raise_SIGPIPE_exits {A} : @raise_SIGPIPE A = Exits 0.
Proof. reflexivity. Qed.

(** The process runs [handle_command] as the dispatcher by itself does,
    up to the one [send] of the call: when that returns, the call ends
    as the dispatcher's; when the peer has closed, the process exits
    inside the call. *)
Lemma handle_command_sys_eq sends fd cmd command0 argument0 w :
  handle_command_sys sends fd cmd command0 argument0 w =
  match sends (length (sent w)) with
  | SendReturns _ =>
      let '(r, w') := handle_command fd cmd command0 argument0 w in
      Goes r w'
  | SendPeerClosed => Exits 0
  end.
Proof.
  unfold handle_command_sys, handle_command.
  destruct (sscanf_command cmd command0 argument0) as [[n command] argument].
  destruct (n <? 1).
  { unfold bindp, bind, retp, ret, send_response_sys, send_response.
    by destruct (sends (length (sent w))). }
  repeat match goal with
         | |- context [if strcmp ?a ?b =? 0 then _ else _] =>
             destruct (strcmp a b =? 0)
         end;
    unfold bindp, bind, retp, ret, inside, send_response_sys, send_response,
      update_device, get_device; cbn [device sent fst snd];
    repeat match goal with
           | |- context [if ?x =? 0 then _ else _] => destruct (x =? 0)
           end;
    cbn [device sent fst snd];
    by destruct (sends (length (sent w))).
Qed.

Lemma handle_command_sys_returns sends fd cmd command0 argument0 w :
  sends_return sends ->
  handle_command_sys sends fd cmd command0 argument0 w =
  Goes (fst (handle_command fd cmd command0 argument0 w))
       (snd (handle_command fd cmd command0 argument0 w)).
Proof.
  intros Hs. rewrite handle_command_sys_eq.
  destruct (Hs (length (sent w))) as [n ->].
  by destruct (handle_command fd cmd command0 argument0 w).
Qed.

Lemma client_loop_sys_returns sends fd buf results w :
  sends_return sends ->
  client_loop_sys sends fd buf results w =
  Goes (fst (client_loop fd buf results w))
       (snd (client_loop fd buf results w)).
Proof.
  intros Hs. revert buf w.
  induction results as [|r rs IH]; intros buf w; [done|].
  destruct r as [msg c0 a0| |errno]; cbn [client_loop_sys client_loop].
  - destruct (strip_line_end _ _) as [buf'|]; [|done].
    unfold bindp, bind. rewrite handle_command_sys_returns by done.
    destruct (handle_command fd buf' c0 a0 w) as [r w']. cbn [fst snd].
    apply IH.
  - done.
  - destruct (errno =? EINTR); [apply IH | done].
Qed.

Lemma client_thread_sys_returns sends fd buf0 results w :
  sends_return sends ->
  client_thread_sys sends fd buf0 results w =
  Goes (fst (client_thread fd buf0 results w))
       (snd (client_thread fd buf0 results w)).
Proof.
  intros Hs. unfold client_thread_sys, client_thread, bindp, bind,
    send_response_sys, send_response.
  destruct (Hs (length (sent w))) as [n ->].
  rewrite client_loop_sys_returns by done.
  by destruct (client_loop fd buf0 results _).
Qed.

(** C4 fails on a client that has closed its end: the dispatcher calls
    [send] on the closed connection, the kernel raises SIGPIPE, for
    which [install_signals] has installed [on_signal], and [on_signal]
    ends the server with [_exit(0)], inside [handle_command] and before
    any response is delivered.  Here on the line READ, in the initial
    state. *)
Lemma C4_closed_peer_ends_server :
  install_signals SIGPIPE = SigHandler on_signal /\
  handle_command_sys (fun _ => SendPeerClosed) 3 (lit "READ") [] []
    initial_world = Exits 0.
Proof. split; [reflexivity|]. by rewrite handle_command_sys_eq. Qed.

(** X27.  A closed peer ends the server on every line: whatever the
    command string, the state and the client, when the [send] of the
    response finds the connection closed, the process exits with status
    0 inside that call of [handle_command]; no later command of any
    client is handled. *)
Theorem X27_closed_peer_exit sends fd cmd command0 argument0 w :
  sends (length (sent w)) = SendPeerClosed ->
  handle_command_sys sends fd cmd command0 argument0 w = Exits 0.
Proof. intros Hs. by rewrite handle_command_sys_eq, Hs. Qed.

Lemma X27_closed_peer_exit_witness :
  handle_command_sys (fun _ => SendPeerClosed) 4 (lit "FOO") [] []
    initial_world = Exits 0.
Proof.
  apply (X27_closed_peer_exit (fun _ => SendPeerClosed) 4 (lit "FOO") [] []
           initial_world).
  reflexivity.
Defined.

(** X21.  A session of well-formed messages in which every [send]
    returns: when every result of [recv] is a message of 2 to 1023
    bytes, [client_thread] handles all of them, sends the greeting and
    then exactly one response for each message, and goes on waiting in
    [recv]; the process neither exits nor is killed. *)
Theorem X21_session_of_messages sends fd buf0 results w :
  sends_return sends ->
  Z.of_nat (length buf0) = 1024 ->
  Forall (fun r => exists msg c0 a0,
            r = Received msg c0 a0 /\ (2 <= length msg <= 1023)%nat)
         results ->
  exists w',
    client_thread_sys sends fd buf0 results w = Goes Waiting w' /\
    length (sent w') = (length (sent w) + 1 + length results)%nat.
Proof.
  intros Hs Hb Hall.
  destruct (client_thread_messages fd buf0 results w Hb Hall) as [H1 H2].
  exists (snd (client_thread fd buf0 results w)).
  rewrite client_thread_sys_returns by done. by rewrite H1.
Qed.

Lemma X21_session_of_messages_witness :
  let results := [Received (lit "DATA hi") [] []; Received (lit "READ") [] []] in
  exists w',
    client_thread_sys (fun _ => SendReturns 0) 3 (replicate 1024 NUL)
      results initial_world = Goes Waiting w' /\
    length (sent w') = (length (sent initial_world) + 1 + length results)%nat.
Proof.
  apply (X21_session_of_messages (fun _ => SendReturns 0) 3
           (replicate 1024 NUL)
           [Received (lit "DATA hi") [] []; Received (lit "READ") [] []]
           initial_world).
  - intros k. by exists 0.
  - vm_compute. reflexivity.
  - repeat constructor; eexists _, _, _; (split; [reflexivity|]);
      vm_compute; lia.
Defined.

(* ================================================================== *)
(** ** The request tool as a process *)
(* ================================================================== *)

Module ClientSys.

(** How a run of the tool ends: [main] returns a status, or a signal
    kills the process.  The tool installs no handler, so SIGPIPE has its
    default action, which ends the process. *)
Inductive ending :=
| Returns (status : Z)
| KilledBy (signo : Z).

(** What the system calls of one run do; [send] as in the server: it
    returns, or the server has closed the connection and SIGPIPE is
    raised. *)
Record env := mk_env {
  socket_ret : Z;
  connect_ret : Z;
  greeting : Client.received;
  send_res : send_result;
  response : Client.received
}.

(** [main] of client.c in its process, for [argv = prog :: args]. *)
Definition main (prog : list byte) (args : list (list byte)) (e : env)
  : ending * list Client.event :=
  match args with
  | [] => (Returns Client.EXIT_FAILURE, Client.usage prog)
  | cmd :: _ =>
      let fd := socket_ret e in
      if fd =? -1
      then (Returns Client.EXIT_FAILURE, [Client.Perror (lit "socket")])
      else if connect_ret e =? -1
      then (Returns Client.EXIT_FAILURE,
            [Client.Perror (lit "connect"); Client.Close fd])
      else
        let greeted :=
          match greeting e with
          | Client.Bytes b =>
              [Client.Stdout (lit "Сервер: " ++ cstr (b ++ [NUL]) ++ [LF])]
          | _ => []
          end in
        match send_res e with
        | SendPeerClosed =>
            (KilledBy SIGPIPE, greeted ++ [Client.Send fd (cstr cmd)])
        | SendReturns n =>
            if n =? -1
            then (Returns Client.EXIT_FAILURE,
                  greeted ++ [Client.Send fd (cstr cmd);
                              Client.Perror (lit "send"); Client.Close fd])
            else
              let answered :=
                match response e with
                | Client.Bytes b =>
                    Client.Stdout
                      (lit "Ответ: " ++ cstr (b ++ [NUL]) ++ [LF])
                | Client.Closed =>
                    Client.Stdout (lit "Сервер закрыл соединение" ++ [LF])
                | Client.Failed => Client.Perror (lit "recv")
                end in
              (Returns Client.EXIT_SUCCESS,
               greeted ++ [Client.Send fd (cstr cmd); answered;
                           Client.Close fd])
        end
  end.

End ClientSys.

(** A run in which [send] returns is the run of [Client.main]. *)
Lemma client_sys_returns prog args s c g n r :
  ClientSys.main prog args (ClientSys.mk_env s c g (SendReturns n) r) =
  (ClientSys.Returns (fst (Client.main prog args (Client.mk_env s c g n r))),
   snd (Client.main prog args (Client.mk_env s c g n r))).
Proof.
  unfold ClientSys.main, Client.main. cbn.
  destruct args as [|cmd more]; [done|].
  destruct (s =? -1); [done|]. destruct (c =? -1); [done|].
  by destruct (n =? -1).
Qed.

(** X25.  The descriptor of the tool, in every run with a command.  A
    run in which [main] returns closes the socket exactly once, as its
    last act, when [socket] gave a descriptor, and closes nothing when
    it did not.  A run in which [send] finds the connection closed is
    killed by SIGPIPE in that call: it ends with the call of [send],
    prints no response and closes nothing. *)
Theorem X25_client_descriptor prog cmd more (e : ClientSys.env) :
  let '(ending, events) := ClientSys.main prog (cmd :: more) e in
  let fd := ClientSys.socket_ret e in
  match ending with
  | ClientSys.Returns _ =>
      if decide (fd = -1)
      then filter Client.is_close events = []
      else filter Client.is_close events = [Client.Close fd] /\
           last events = Some (Client.Close fd)
  | ClientSys.KilledBy signo =>
      signo = SIGPIPE /\
      ClientSys.send_res e = SendPeerClosed /\
      filter Client.is_close events = [] /\
      last events = Some (Client.Send fd (cstr cmd))
  end.
Proof.
  unfold ClientSys.main.
  destruct (Z.eqb_spec (ClientSys.socket_ret e) (-1)) as [Hs|Hs].
  { rewrite decide_True by done. done. }
  destruct (client_greeted_filter (ClientSys.greeting e) 0) as (_ & Hg & _).
  destruct (Z.eqb_spec (ClientSys.connect_ret e) (-1)).
  { rewrite decide_False by done. done. }
  destruct (ClientSys.send_res e) as [k|].
  - destruct (Z.eqb_spec k (-1)); rewrite decide_False by done.
    + rewrite filter_app, Hg. split; [done|]. by rewrite last_app.
    + rewrite filter_app, Hg.
      split; [by destruct (ClientSys.response e)|]. by rewrite last_app.
  - rewrite filter_app, Hg. repeat split; try done. by rewrite last_app.
Qed.
